(** * Black-Scholes pricer and Monte Carlo path simulator (src/options.py)

    A shallow embedding of [BlackScholesModel] and [monte_carlo_simulation],
    and the properties stated for them.

    Number model.  The Python floats that are passed in (S0, r, sigma, T, K)
    and the draws of the random generator are finite and are read as real
    numbers; rounding, overflow and underflow of IEEE arithmetic are not
    modelled.  A value computed by numpy may leave the finite range through
    an operation that is undefined on the reals (logarithm of a non-positive
    number, square root of a negative number, division by zero), so numpy
    values live in [float64]: a real, an infinity or NaN.  Python's own
    division raises ZeroDivisionError instead.  Zero carries no sign.
    The last section runs the same program text on [np.exp] and
    [stats.norm.cdf] with the range of binary64, where a result too small
    is 0.0 and one too large is inf. *)

From Stdlib Require Import Reals Lra Lia ZArith List Bool Classical.
Import ListNotations.

Open Scope R_scope.

(** * The standard normal distribution function

    [stats.norm.cdf] is the distribution function of the standard normal
    law,
    [norm_cdf x = 1/2 + (integral of exp (- t^2 / 2) from 0 to x) / sqrt (2 * PI)].
    The integral is [gauss_area], a Riemann integral of the bell curve
    [gauss].  The mass of a half line, [gauss_half_mass], is the least upper
    bound of [gauss_area]; it equals sqrt (PI / 2) (the Gaussian integral,
    obtained below from Wallis' integrals), which gives [norm_cdf] its
    limits 0 and 1. *)

(** ** Antiderivative of a continuous function *)

Section Primitive.
Variable f : R -> R.
Hypothesis f_cont : forall x, continuity_pt f x.

Lemma integrable_from_0 (x : R) : Riemann_integrable f 0 x.
Proof.
  destruct (Rle_dec 0 x) as [H|H].
  - apply continuity_implies_RiemannInt; [exact H | intros; apply f_cont].
  - apply RiemannInt_P1, continuity_implies_RiemannInt; [lra | intros; apply f_cont].
Defined.

Definition integral_from_0 (x : R) : R := RiemannInt (integrable_from_0 x).

Lemma integral_from_0_at_0 : integral_from_0 0 = 0.
Proof. unfold integral_from_0. apply RiemannInt_P9. Qed.

Lemma integral_from_0_deriv (x : R) :
  derivable_pt_lim integral_from_0 x (f x).
Proof.
  set (A := Rabs x + 1).
  assert (HA : - A <= A) by (unfold A; pose proof (Rabs_pos x); lra).
  set (C0 := fun (y : R) (_ : - A <= y <= A) => f_cont y).
  set (P := primitive HA (FTC_P1 HA C0)).
  assert (Hin : - A < x < A).
  { unfold A. destruct (Rcase_abs x) as [Hx|Hx].
    - rewrite (Rabs_left _ Hx); lra.
    - rewrite (Rabs_right _ Hx); lra. }
  apply (derivable_pt_lim_locally_ext (fun y => P y - P 0) integral_from_0 x (-A) A).
  - exact Hin.
  - intros z Hz. unfold P, primitive.
    destruct (Rle_dec (- A) z) as [H1|H1]; [|lra].
    destruct (Rle_dec z A) as [H2|H2]; [|lra].
    destruct (Rle_dec (- A) 0) as [H3|H3]; [|lra].
    destruct (Rle_dec 0 A) as [H4|H4]; [|lra].
    unfold integral_from_0.
    rewrite <- (RiemannInt_P26 (FTC_P1 HA C0 H3 H4) (integrable_from_0 z) (FTC_P1 HA C0 H1 H2)).
    ring.
  - replace (f x) with (f x - 0) by ring.
    apply (derivable_pt_lim_minus P (fun _ => P 0)).
    + apply RiemannInt_P28. lra.
    + apply (derivable_pt_lim_const (P 0)).
Qed.
End Primitive.

(** ** Monotonicity from the sign of the derivative *)

Section MeanValue.
Variables (F F' : R -> R) (a b : R).
Hypothesis Hder : forall c, a <= c <= b -> derivable_pt_lim F c (F' c).

Lemma deriv_nonneg_incr : a <= b -> (forall c, a <= c <= b -> 0 <= F' c) -> F a <= F b.
Proof.
  intros [Hab | ->] Hpos; [|lra].
  destruct (MVT_cor2 F F' a b Hab Hder) as [c [Hc Hin]].
  assert (0 <= F' c) by (apply Hpos; lra). nra.
Qed.

Lemma deriv_pos_incr : a < b -> (forall c, a <= c <= b -> 0 < F' c) -> F a < F b.
Proof.
  intros Hab Hpos.
  destruct (MVT_cor2 F F' a b Hab Hder) as [c [Hc Hin]].
  assert (0 < F' c) by (apply Hpos; lra). nra.
Qed.

Lemma deriv_nonpos_decr : a <= b -> (forall c, a <= c <= b -> F' c <= 0) -> F b <= F a.
Proof.
  intros [Hab | ->] Hneg; [|lra].
  destruct (MVT_cor2 F F' a b Hab Hder) as [c [Hc Hin]].
  assert (F' c <= 0) by (apply Hneg; lra). nra.
Qed.

Lemma deriv_zero_const : a <= b -> (forall c, a <= c <= b -> F' c = 0) -> F b = F a.
Proof.
  intros [Hab | ->] Hz; [|lra].
  destruct (MVT_cor2 F F' a b Hab Hder) as [c [Hc Hin]].
  rewrite (Hz c) in Hc by lra. lra.
Qed.
End MeanValue.

(** ** The bell curve and its integral *)

Definition gauss (x : R) : R := exp (- (x * x) / 2).

Lemma gauss_pos x : 0 < gauss x.
Proof. apply exp_pos. Qed.

Lemma gauss_even x : gauss (- x) = gauss x.
Proof. unfold gauss. replace (- x * - x) with (x * x) by ring. reflexivity. Qed.

Lemma gauss_deriv x : derivable_pt_lim gauss x (- x * gauss x).
Proof.
  unfold gauss.
  replace (- x * exp (- (x * x) / 2)) with (exp (- (x * x) / 2) * (- x)) by ring.
  apply (derivable_pt_lim_comp (fun y => - (y * y) / 2) exp).
  - replace (- x) with ((- (1 * x + x * 1)) * / 2) by field.
    apply (derivable_pt_lim_scal_right (fun y => - (y * y)) x (- (1 * x + x * 1)) (/ 2)).
    apply (derivable_pt_lim_opp (fun y => y * y)).
    apply (derivable_pt_lim_mult id id); apply derivable_pt_lim_id.
  - apply derivable_pt_lim_exp.
Qed.

Lemma gauss_cont x : continuity_pt gauss x.
Proof.
  apply derivable_continuous_pt. exists (- x * gauss x). apply gauss_deriv.
Qed.

Definition gauss_area (x : R) : R := integral_from_0 gauss gauss_cont x.

Lemma gauss_area_0 : gauss_area 0 = 0.
Proof. apply integral_from_0_at_0. Qed.

Lemma gauss_area_deriv x : derivable_pt_lim gauss_area x (gauss x).
Proof. apply integral_from_0_deriv. Qed.

Lemma gauss_area_mirror_deriv x :
  derivable_pt_lim (fun y => gauss_area (- y)) x (- gauss x).
Proof.
  replace (- gauss x) with (gauss (- x) * -1) by (rewrite gauss_even; ring).
  apply (derivable_pt_lim_comp (fun y => - y) gauss_area).
  - apply (derivable_pt_lim_opp id x 1). apply derivable_pt_lim_id.
  - apply gauss_area_deriv.
Qed.

Lemma gauss_area_odd x : gauss_area (- x) = - gauss_area x.
Proof.
  set (u := fun y => gauss_area y + gauss_area (- y)).
  assert (Hu : forall c, derivable_pt_lim u c ((fun _ => 0) c)).
  { intro c. replace 0 with (gauss c + - gauss c) by ring.
    apply (derivable_pt_lim_plus gauss_area (fun y => gauss_area (- y))).
    - apply gauss_area_deriv.
    - apply gauss_area_mirror_deriv. }
  assert (u x = u 0).
  { destruct (Rle_dec 0 x) as [H|H].
    - apply (deriv_zero_const u (fun _ => 0) 0 x); auto.
    - symmetry. apply (deriv_zero_const u (fun _ => 0) x 0); auto. lra. }
  unfold u in H. rewrite Ropp_0, gauss_area_0 in H. lra.
Qed.

Lemma gauss_area_incr x y : x < y -> gauss_area x < gauss_area y.
Proof.
  intro H. apply (deriv_pos_incr gauss_area gauss x y); auto.
  - intros; apply gauss_area_deriv.
  - intros; apply gauss_pos.
Qed.

Lemma gauss_le_exp x : gauss x <= exp (/ 2 - x).
Proof.
  unfold gauss.
  assert (H : - (x * x) / 2 <= / 2 - x) by (pose proof (Rle_0_sqr (x - 1)) as Hs; unfold Rsqr in Hs; nra).
  destruct H as [H|H].
  - left. apply exp_increasing. exact H.
  - rewrite H. right. reflexivity.
Qed.

Lemma gauss_area_bounded x : gauss_area x <= exp (/ 2).
Proof.
  destruct (Rle_dec 0 x) as [Hx|Hx].
  - set (B := fun y => gauss_area y + exp (/ 2 - y)).
    assert (B x <= B 0).
    { apply (deriv_nonpos_decr B (fun y => gauss y + exp (/ 2 - y) * (0 - 1)) 0 x); auto.
      - intros c _. apply (derivable_pt_lim_plus gauss_area (fun y => exp (/ 2 - y))).
        + apply gauss_area_deriv.
        + apply (derivable_pt_lim_comp (fun y => / 2 - y) exp).
          * apply (derivable_pt_lim_minus (fun _ => / 2) id).
            apply (derivable_pt_lim_const (/ 2)). apply derivable_pt_lim_id.
          * apply derivable_pt_lim_exp.
      - intros c _. pose proof (gauss_le_exp c). lra. }
    unfold B in H. rewrite gauss_area_0, Rminus_0_r in H.
    pose proof (exp_pos (/ 2 - x)). lra.
  - assert (gauss_area x < gauss_area 0) by (apply gauss_area_incr; lra).
    rewrite gauss_area_0 in H. pose proof (exp_pos (/ 2)). lra.
Qed.

(** ** The mass of a half line *)

Definition gauss_area_range (y : R) : Prop := exists x, y = gauss_area x.

Lemma gauss_area_range_bound : bound gauss_area_range.
Proof. exists (exp (/ 2)). intros y [x ->]. apply gauss_area_bounded. Qed.

Lemma gauss_area_range_inhabited : exists y, gauss_area_range y.
Proof. exists (gauss_area 0), 0. reflexivity. Qed.

Definition gauss_half_mass : R :=
  proj1_sig (completeness gauss_area_range gauss_area_range_bound gauss_area_range_inhabited).

Lemma gauss_half_mass_lub : is_lub gauss_area_range gauss_half_mass.
Proof. unfold gauss_half_mass. apply proj2_sig. Qed.

Lemma gauss_area_lt_mass x : gauss_area x < gauss_half_mass.
Proof.
  apply Rlt_le_trans with (gauss_area (x + 1)).
  - apply gauss_area_incr. lra.
  - apply (proj1 gauss_half_mass_lub). exists (x + 1). reflexivity.
Qed.

Lemma gauss_half_mass_pos : 0 < gauss_half_mass.
Proof. rewrite <- gauss_area_0. apply gauss_area_lt_mass. Qed.

Lemma gauss_area_limit eps :
  0 < eps -> exists M, forall x, M < x -> gauss_half_mass - eps < gauss_area x.
Proof.
  intro Heps.
  assert (Hex : exists x0, gauss_half_mass - eps < gauss_area x0).
  { apply NNPP. intro Hno.
    assert (Hub : is_upper_bound gauss_area_range (gauss_half_mass - eps)).
    { intros y [x ->]. apply Rnot_lt_le. intro Hlt. apply Hno. exists x. exact Hlt. }
    pose proof (proj2 gauss_half_mass_lub _ Hub). lra. }
  destruct Hex as [x0 Hx0]. exists x0. intros x Hx.
  apply Rlt_trans with (gauss_area x0); [exact Hx0 | apply gauss_area_incr; exact Hx].
Qed.

(** ** Comparing antiderivatives *)

Section Compare.
Variables (F G f g : R -> R) (a b : R).
Hypothesis a_le_b : a <= b.
Hypothesis F_deriv : forall c, a <= c <= b -> derivable_pt_lim F c (f c).
Hypothesis G_deriv : forall c, a <= c <= b -> derivable_pt_lim G c (g c).

Lemma antiderivative_le :
  (forall c, a <= c <= b -> f c <= g c) -> F b - F a <= G b - G a.
Proof.
  intro Hfg.
  assert (H : (fun x => G x - F x) a <= (fun x => G x - F x) b).
  { apply (deriv_nonneg_incr (fun x => G x - F x) (fun x => g x - f x) a b).
    - intros c Hc. apply (derivable_pt_lim_minus G F); [apply G_deriv | apply F_deriv]; exact Hc.
    - exact a_le_b.
    - intros c Hc. specialize (Hfg c Hc). lra. }
  cbv beta in H. lra.
Qed.

End Compare.

Lemma antiderivative_eq (F G f g : R -> R) (a b : R) :
  a <= b ->
  (forall c, a <= c <= b -> derivable_pt_lim F c (f c)) ->
  (forall c, a <= c <= b -> derivable_pt_lim G c (g c)) ->
  (forall c, a <= c <= b -> f c = g c) ->
  F b - F a = G b - G a.
Proof.
  intros Hab HF HG Hfg. apply Rle_antisym.
  - apply (antiderivative_le F G f g a b); auto. intros c Hc. rewrite (Hfg c Hc). lra.
  - apply (antiderivative_le G F g f a b); auto. intros c Hc. rewrite (Hfg c Hc). lra.
Qed.

(** ** Wallis' integrals *)

Definition cos_pow (k : nat) (t : R) : R := cos t ^ k.

Lemma cos_pow_deriv (k : nat) (t : R) :
  derivable_pt_lim (cos_pow k) t (INR k * cos t ^ pred k * - sin t).
Proof.
  apply (derivable_pt_lim_comp cos (fun y => y ^ k)).
  - apply derivable_pt_lim_cos.
  - apply derivable_pt_lim_pow.
Qed.

Lemma cos_pow_cont (k : nat) (t : R) : continuity_pt (cos_pow k) t.
Proof.
  apply derivable_continuous_pt. exists (INR k * cos t ^ pred k * - sin t).
  apply cos_pow_deriv.
Qed.

Definition wallis_area (k : nat) (t : R) : R := integral_from_0 (cos_pow k) (cos_pow_cont k) t.

Definition wallis (k : nat) : R := wallis_area k (PI / 2).

Lemma wallis_area_0 (k : nat) : wallis_area k 0 = 0.
Proof. apply integral_from_0_at_0. Qed.

Lemma wallis_area_deriv (k : nat) (t : R) : derivable_pt_lim (wallis_area k) t (cos t ^ k).
Proof. apply (integral_from_0_deriv (cos_pow k)). Qed.

Lemma PI2_pos : 0 <= PI / 2.
Proof. pose proof PI_RGT_0. lra. Qed.

Lemma cos_unit (t : R) : 0 <= t <= PI / 2 -> 0 <= cos t <= 1.
Proof.
  intros [H0 H1]. split.
  - apply cos_ge_0; lra.
  - apply COS_bound.
Qed.

Lemma wallis_area_step (j : nat) (t : R) :
  0 <= t ->
  INR (S (S j)) * wallis_area (S (S j)) t
  = INR (S j) * wallis_area j t + cos t ^ S j * sin t.
Proof.
  intro Ht.
  pose proof (antiderivative_eq
    (fun x => INR (S (S j)) * wallis_area (S (S j)) x)
    (fun x => INR (S j) * wallis_area j x + cos x ^ S j * sin x)
    (fun x => INR (S (S j)) * cos x ^ S (S j))
    (fun x => INR (S j) * cos x ^ j
              + ((INR (S j) * cos x ^ pred (S j) * - sin x) * sin x + cos x ^ S j * cos x))
    0 t Ht) as H.
  cbv beta in H. rewrite !wallis_area_0, sin_0 in H.
  rewrite !Rmult_0_r, Rplus_0_r, !Rminus_0_r in H. apply H.
  - intros c _. apply (derivable_pt_lim_scal (wallis_area (S (S j)))), wallis_area_deriv.
  - intros c _.
    apply (derivable_pt_lim_plus (fun x => INR (S j) * wallis_area j x)
                                 (fun x => cos x ^ S j * sin x)).
    + apply (derivable_pt_lim_scal (wallis_area j)), wallis_area_deriv.
    + apply (derivable_pt_lim_mult (cos_pow (S j)) sin).
      * apply cos_pow_deriv.
      * apply derivable_pt_lim_sin.
  - intros c _. cbn [pred].
    pose proof (sin2_cos2 c) as Hsc. unfold Rsqr in Hsc.
    rewrite (S_INR (S j)). cbn [pow].
    replace (INR (S j) * cos c ^ j * - sin c * sin c)
      with (- (INR (S j) * cos c ^ j) * (sin c * sin c)) by ring.
    replace (sin c * sin c) with (1 - cos c * cos c) by lra. ring.
Qed.

Lemma wallis_step (j : nat) : INR (S (S j)) * wallis (S (S j)) = INR (S j) * wallis j.
Proof.
  unfold wallis. rewrite wallis_area_step by apply PI2_pos.
  rewrite cos_PI2. simpl. ring.
Qed.

Lemma wallis_0 : wallis 0 = PI / 2.
Proof.
  pose proof (antiderivative_eq (wallis_area 0) id (fun x => cos x ^ 0) (fun _ => 1)
                0 (PI / 2) PI2_pos) as H.
  unfold id in H. rewrite wallis_area_0, !Rminus_0_r in H. apply H.
  - intros c _. apply wallis_area_deriv.
  - intros c _. apply derivable_pt_lim_id.
  - intros c _. reflexivity.
Qed.

Lemma wallis_1 : wallis 1 = 1.
Proof.
  pose proof (antiderivative_eq (wallis_area 1) sin (fun x => cos x ^ 1) cos
                0 (PI / 2) PI2_pos) as H.
  rewrite wallis_area_0, sin_0, sin_PI2, !Rminus_0_r in H. apply H.
  - intros c _. apply wallis_area_deriv.
  - intros c _. apply derivable_pt_lim_sin.
  - intros c _. simpl. ring.
Qed.

Lemma wallis_product (k : nat) : INR (S k) * wallis (S k) * wallis k = PI / 2.
Proof.
  induction k as [|k IH].
  - rewrite wallis_1, wallis_0. simpl. ring.
  - rewrite wallis_step. rewrite <- IH. ring.
Qed.

Lemma wallis_area_mono (k : nat) (s t : R) :
  0 <= s -> s <= t -> t <= PI / 2 -> wallis_area k s <= wallis_area k t.
Proof.
  intros Hs Hst Ht.
  apply (deriv_nonneg_incr (wallis_area k) (fun x => cos x ^ k) s t); auto.
  - intros c _. apply wallis_area_deriv.
  - intros c Hc. apply pow_le. apply cos_unit. lra.
Qed.

Lemma wallis_nonneg (k : nat) : 0 <= wallis k.
Proof.
  rewrite <- (wallis_area_0 k). apply wallis_area_mono; [lra | apply PI2_pos | lra].
Qed.

Lemma wallis_decr (k : nat) : wallis (S k) <= wallis k.
Proof.
  pose proof (antiderivative_le (wallis_area (S k)) (wallis_area k)
                (fun x => cos x ^ S k) (fun x => cos x ^ k) 0 (PI / 2) PI2_pos) as H.
  rewrite !wallis_area_0, !Rminus_0_r in H. apply H.
  - intros c _. apply wallis_area_deriv.
  - intros c _. apply wallis_area_deriv.
  - intros c Hc. destruct (cos_unit c Hc) as [H0 H1].
    pose proof (pow_le (cos c) k H0). simpl. nra.
Qed.

Lemma wallis_square_upper (k : nat) : INR (S k) * (wallis (S k) * wallis (S k)) <= PI / 2.
Proof.
  rewrite <- (wallis_product k).
  pose proof (wallis_decr k). pose proof (wallis_nonneg (S k)).
  pose proof (pos_INR (S k)).
  rewrite Rmult_assoc. apply Rmult_le_compat_l; [assumption | nra].
Qed.

Lemma wallis_square_lower (k : nat) : PI / 2 <= INR (S (S k)) * (wallis (S k) * wallis (S k)).
Proof.
  rewrite <- (wallis_product (S k)).
  pose proof (wallis_decr (S k)). pose proof (wallis_nonneg (S (S k))).
  pose proof (pos_INR (S (S k))).
  rewrite Rmult_assoc. apply Rmult_le_compat_l; [assumption | nra].
Qed.

(** ** The bell curve between two powers of the cosine *)

Lemma exp_pow_nat (x : R) (n : nat) : exp x ^ n = exp (INR n * x).
Proof.
  induction n as [|n IH].
  - simpl. rewrite Rmult_0_l, exp_0. reflexivity.
  - rewrite S_INR. cbn [pow]. rewrite IH, <- exp_plus. f_equal. ring.
Qed.

Lemma pow_twice (x : R) (n : nat) : x ^ (2 * n) = (x * x) ^ n.
Proof.
  induction n as [|n IH]; [reflexivity|].
  replace (2 * S n)%nat with (S (S (2 * n))) by lia.
  cbn [pow]. rewrite IH. ring.
Qed.

Definition gauss_scale (n : nat) : R := sqrt (2 * INR n).

Lemma gauss_scale_sqr (n : nat) : gauss_scale n * gauss_scale n = 2 * INR n.
Proof. unfold gauss_scale. apply sqrt_sqrt. pose proof (pos_INR n). lra. Qed.

Lemma gauss_scale_pos (n : nat) : (1 <= n)%nat -> 0 < gauss_scale n.
Proof.
  intro Hn. unfold gauss_scale. apply sqrt_lt_R0.
  assert (1 <= INR n) by (replace 1 with (INR 1) by reflexivity; apply le_INR; exact Hn). lra.
Qed.

Lemma gauss_scaled (n : nat) (x : R) : gauss (gauss_scale n * x) = exp (- (x * x)) ^ n.
Proof.
  rewrite exp_pow_nat. unfold gauss. f_equal.
  replace (gauss_scale n * x * (gauss_scale n * x))
    with (gauss_scale n * gauss_scale n * (x * x)) by ring.
  rewrite gauss_scale_sqr. field.
Qed.

Lemma gauss_area_scaled_deriv (n : nat) (u : R -> R) (x l : R) :
  derivable_pt_lim u x l ->
  derivable_pt_lim (fun y => gauss_area (gauss_scale n * u y)) x
    (exp (- (u x * u x)) ^ n * (gauss_scale n * l)).
Proof.
  intro Hu. rewrite <- gauss_scaled.
  apply (derivable_pt_lim_comp (fun y => gauss_scale n * u y) gauss_area).
  - apply (derivable_pt_lim_scal u). exact Hu.
  - apply gauss_area_deriv.
Qed.

(** Below: cos^(2n+1), through x = sin t. *)
Lemma wallis_le_gauss_area (n : nat) :
  (1 <= n)%nat -> gauss_scale n * wallis (S (2 * n)) <= gauss_area (gauss_scale n).
Proof.
  intro Hn. pose proof (gauss_scale_pos n Hn) as Hs.
  pose proof (antiderivative_le
    (fun t => gauss_scale n * wallis_area (S (2 * n)) t)
    (fun t => gauss_area (gauss_scale n * sin t))
    (fun t => gauss_scale n * cos t ^ S (2 * n))
    (fun t => exp (- (sin t * sin t)) ^ n * (gauss_scale n * cos t))
    0 (PI / 2) PI2_pos) as H.
  cbv beta in H. rewrite wallis_area_0, sin_0, sin_PI2 in H.
  rewrite !Rmult_0_r, Rmult_1_r, gauss_area_0, !Rminus_0_r in H.
  apply H.
  - intros c _. apply (derivable_pt_lim_scal (wallis_area (S (2 * n)))), wallis_area_deriv.
  - intros c _. apply gauss_area_scaled_deriv, derivable_pt_lim_sin.
  - intros c Hc. destruct (cos_unit c Hc) as [H0 H1].
    cbn [pow]. rewrite pow_twice.
    pose proof (sin2_cos2 c) as Hsc. unfold Rsqr in Hsc.
    assert (Hpow : (cos c * cos c) ^ n <= exp (- (sin c * sin c)) ^ n).
    { apply pow_incr. split; [nra|].
      pose proof (exp_ineq1_le (- (sin c * sin c))). lra. }
    assert (0 <= gauss_scale n * cos c) by nra.
    replace (gauss_scale n * (cos c * (cos c * cos c) ^ n))
      with ((cos c * cos c) ^ n * (gauss_scale n * cos c)) by ring.
    apply Rmult_le_compat_r; assumption.
Qed.

Lemma cos_atan_sqr (x : R) : cos (atan x) * cos (atan x) = / (1 + x ^ 2).
Proof.
  rewrite cos_atan. unfold Rsqr.
  assert (Hpos : 0 < 1 + x * x) by nra.
  assert (Hs : sqrt (1 + x * x) * sqrt (1 + x * x) = 1 + x * x) by (apply sqrt_sqrt; lra).
  assert (Hne : sqrt (1 + x * x) <> 0).
  { intro Hz. rewrite Hz in Hs. lra. }
  replace (x ^ 2) with (x * x) by ring. rewrite <- Hs at 3. field. exact Hne.
Qed.

(** Above: cos^(2m), through x = tan t. *)
Lemma gauss_area_le_wallis (m : nat) (x : R) :
  0 <= x -> gauss_area (gauss_scale (S m) * x) <= gauss_scale (S m) * wallis (2 * m).
Proof.
  intro Hx. pose proof (gauss_scale_pos (S m) ltac:(lia)) as Hs.
  apply Rle_trans with (gauss_scale (S m) * wallis_area (2 * m) (atan x)).
  - pose proof (antiderivative_le
      (fun y => gauss_area (gauss_scale (S m) * id y))
      (fun y => gauss_scale (S m) * wallis_area (2 * m) (atan y))
      (fun y => exp (- (id y * id y)) ^ S m * (gauss_scale (S m) * 1))
      (fun y => gauss_scale (S m) * (cos (atan y) ^ (2 * m) * / (1 + y ^ 2)))
      0 x Hx) as H.
    cbv beta in H. unfold id in H. rewrite atan_0, wallis_area_0 in H.
    rewrite !Rmult_0_r, gauss_area_0, !Rminus_0_r in H.
    apply H.
    + intros c _. apply gauss_area_scaled_deriv, derivable_pt_lim_id.
    + intros c _. apply (derivable_pt_lim_scal (fun y => wallis_area (2 * m) (atan y))).
      apply (derivable_pt_lim_comp atan (wallis_area (2 * m))).
      * apply derivable_pt_lim_atan.
      * apply wallis_area_deriv.
    + intros c _. rewrite pow_twice, cos_atan_sqr.
      assert (Hpos : 0 < 1 + c ^ 2) by (simpl; nra).
      assert (Hle : exp (- (c * c)) <= / (1 + c ^ 2)).
      { rewrite exp_Ropp. apply Rinv_le_contravar; [exact Hpos|].
        pose proof (exp_ineq1_le (c * c)). simpl. lra. }
      assert (Hpow : exp (- (c * c)) ^ S m <= (/ (1 + c ^ 2)) ^ S m).
      { apply pow_incr. split; [left; apply exp_pos | exact Hle]. }
      cbn [pow] in *.
      replace (gauss_scale (S m) * ((/ (1 + c * (c * 1))) ^ m * / (1 + c * (c * 1))))
        with (/ (1 + c * (c * 1)) * (/ (1 + c * (c * 1))) ^ m * gauss_scale (S m)) by ring.
      rewrite Rmult_1_r. apply Rmult_le_compat_r; [lra | exact Hpow].
  - apply Rmult_le_compat_l; [lra|].
    destruct (atan_bound x) as [_ Hub].
    assert (0 <= atan x).
    { destruct Hx as [Hx | <-]; [|rewrite atan_0; lra].
      rewrite <- atan_0. left. apply atan_increasing. exact Hx. }
    apply wallis_area_mono; lra.
Qed.

Lemma gauss_half_mass_le_wallis (m : nat) :
  gauss_half_mass <= gauss_scale (S m) * wallis (2 * m).
Proof.
  pose proof (gauss_scale_pos (S m) ltac:(lia)) as Hs.
  apply (proj2 gauss_half_mass_lub). intros y [x ->].
  destruct (Rle_dec 0 x) as [Hx|Hx].
  - replace x with (gauss_scale (S m) * (x / gauss_scale (S m))) by (field; lra).
    apply gauss_area_le_wallis. apply Rmult_le_pos; [exact Hx|].
    left. apply Rinv_0_lt_compat. exact Hs.
  - assert (gauss_area x < gauss_area 0) by (apply gauss_area_incr; lra).
    rewrite gauss_area_0 in H. pose proof (wallis_nonneg (2 * m)). nra.
Qed.

Lemma gauss_mass_lower (n : nat) :
  (1 <= n)%nat -> INR n * (PI / 2) <= INR (S n) * (gauss_half_mass * gauss_half_mass).
Proof.
  intro Hn. pose proof (gauss_scale_pos n Hn) as Hs.
  pose proof (wallis_le_gauss_area n Hn) as H1.
  pose proof (gauss_area_lt_mass (gauss_scale n)) as H2.
  pose proof (wallis_nonneg (S (2 * n))) as H3.
  pose proof (wallis_square_lower (2 * n)) as H4.
  pose proof (gauss_scale_sqr n) as H5.
  set (w := wallis (S (2 * n))) in *. set (s := gauss_scale n) in *.
  set (I := gauss_half_mass) in *.
  assert (Hsw : (s * w) * (s * w) <= I * I) by (assert (0 <= s * w) by nra; nra).
  replace (s * w * (s * w)) with (s * s * (w * w)) in Hsw by ring.
  rewrite H5 in Hsw.
  replace (INR (S (S (2 * n)))) with (2 * INR (S n)) in H4.
  2:{ rewrite !S_INR, mult_INR. simpl. ring. }
  pose proof (pos_INR n). pose proof (pos_INR (S n)).
  assert (0 <= w * w) by nra.
  assert (INR n * (PI / 2) <= INR n * (2 * INR (S n) * (w * w))) by (apply Rmult_le_compat_l; lra).
  assert (INR (S n) * (2 * INR n * (w * w)) <= INR (S n) * (I * I)) by (apply Rmult_le_compat_l; lra).
  lra.
Qed.

Lemma gauss_mass_upper (m : nat) :
  (1 <= m)%nat -> INR m * (gauss_half_mass * gauss_half_mass) <= INR (S m) * (PI / 2).
Proof.
  intro Hm. pose proof (gauss_scale_pos (S m) ltac:(lia)) as Hs.
  pose proof (gauss_half_mass_le_wallis m) as H1.
  pose proof gauss_half_mass_pos as H2.
  pose proof (wallis_nonneg (2 * m)) as H3.
  pose proof (wallis_square_upper (pred (2 * m))) as H4.
  replace (S (pred (2 * m))) with (2 * m)%nat in H4 by lia.
  pose proof (gauss_scale_sqr (S m)) as H5.
  set (w := wallis (2 * m)) in *. set (s := gauss_scale (S m)) in *.
  set (I := gauss_half_mass) in *.
  assert (Hsw : I * I <= (s * w) * (s * w)) by nra.
  replace (s * w * (s * w)) with (s * s * (w * w)) in Hsw by ring.
  rewrite H5 in Hsw.
  replace (INR (2 * m)) with (2 * INR m) in H4 by (rewrite mult_INR; simpl; ring).
  pose proof (pos_INR m). pose proof (pos_INR (S m)).
  assert (0 <= w * w) by nra.
  assert (INR m * (I * I) <= INR m * (2 * INR (S m) * (w * w))) by (apply Rmult_le_compat_l; lra).
  assert (INR (S m) * (2 * INR m * (w * w)) <= INR (S m) * (PI / 2)) by (apply Rmult_le_compat_l; lra).
  lra.
Qed.

(** The Gaussian integral: the square of the mass of a half line is PI / 2. *)
Lemma gauss_half_mass_sqr : gauss_half_mass * gauss_half_mass = PI / 2.
Proof.
  set (J := gauss_half_mass * gauss_half_mass).
  pose proof PI_RGT_0 as HPI.
  assert (HJ : 0 <= J) by (unfold J; nra).
  destruct (Rtotal_order J (PI / 2)) as [Hlt | [Heq | Hgt]]; [exfalso | exact Heq | exfalso].
  - destruct (INR_unbounded (J / (PI / 2 - J))) as [n Hn].
    assert (Hn1 : (1 <= S n)%nat) by lia.
    pose proof (gauss_mass_upper (S n) Hn1) as Hup.
    pose proof (gauss_mass_lower (S n) Hn1) as Hlo. fold J in Hup, Hlo.
    assert (Hd : 0 < PI / 2 - J) by lra.
    assert (J < INR n * (PI / 2 - J)).
    { apply Rmult_lt_reg_r with (/ (PI / 2 - J)); [apply Rinv_0_lt_compat; exact Hd|].
      rewrite Rmult_assoc, Rinv_r by lra. unfold Rdiv in Hn. lra. }
    rewrite !S_INR in Hlo. pose proof (pos_INR n). nra.
  - destruct (INR_unbounded (PI / 2 / (J - PI / 2))) as [n Hn].
    assert (Hn1 : (1 <= S n)%nat) by lia.
    pose proof (gauss_mass_upper (S n) Hn1) as Hup. fold J in Hup.
    assert (Hd : 0 < J - PI / 2) by lra.
    assert (PI / 2 < INR n * (J - PI / 2)).
    { apply Rmult_lt_reg_r with (/ (J - PI / 2)); [apply Rinv_0_lt_compat; exact Hd|].
      rewrite Rmult_assoc, Rinv_r by lra. unfold Rdiv in Hn. lra. }
    rewrite !S_INR in Hup. pose proof (pos_INR n). nra.
Qed.

Lemma sqrt_2PI : sqrt (2 * PI) = 2 * gauss_half_mass.
Proof.
  pose proof gauss_half_mass_pos. pose proof PI_RGT_0.
  apply sqrt_lem_1; [lra | lra |].
  pose proof gauss_half_mass_sqr. nra.
Qed.

(** ** Density and distribution function *)

Definition norm_pdf (x : R) : R := gauss x / sqrt (2 * PI).

Definition norm_cdf (x : R) : R := / 2 + gauss_area x / sqrt (2 * PI).

Lemma norm_pdf_pos x : 0 < norm_pdf x.
Proof.
  unfold norm_pdf. rewrite sqrt_2PI. apply Rdiv_lt_0_compat; [apply gauss_pos|].
  pose proof gauss_half_mass_pos. lra.
Qed.

Lemma norm_cdf_deriv x : derivable_pt_lim norm_cdf x (norm_pdf x).
Proof.
  unfold norm_cdf, norm_pdf. rewrite sqrt_2PI.
  replace (gauss x / (2 * gauss_half_mass)) with (0 + gauss x * / (2 * gauss_half_mass))
    by (unfold Rdiv; ring).
  apply (derivable_pt_lim_plus (fun _ => / 2) (fun y => gauss_area y / (2 * gauss_half_mass))).
  - apply (derivable_pt_lim_const (/ 2)).
  - apply (derivable_pt_lim_scal_right gauss_area x (gauss x) (/ (2 * gauss_half_mass))).
    apply gauss_area_deriv.
Qed.

Lemma norm_pdf_deriv x : derivable_pt_lim norm_pdf x (- x * norm_pdf x).
Proof.
  unfold norm_pdf. rewrite sqrt_2PI.
  replace (- x * (gauss x / (2 * gauss_half_mass)))
    with (- x * gauss x * / (2 * gauss_half_mass)) by (unfold Rdiv; ring).
  apply (derivable_pt_lim_scal_right gauss x (- x * gauss x) (/ (2 * gauss_half_mass))).
  apply gauss_deriv.
Qed.

Lemma norm_cdf_sym x : norm_cdf (- x) = 1 - norm_cdf x.
Proof.
  unfold norm_cdf. rewrite sqrt_2PI. rewrite gauss_area_odd.
  pose proof gauss_half_mass_pos. field. lra.
Qed.

Lemma norm_cdf_pos x : 0 < norm_cdf x.
Proof.
  unfold norm_cdf. rewrite sqrt_2PI. pose proof gauss_half_mass_pos as Hm.
  pose proof (gauss_area_lt_mass (- x)) as H. rewrite gauss_area_odd in H.
  assert (- / 2 < gauss_area x / (2 * gauss_half_mass)); [|lra].
  apply Rmult_lt_reg_r with (2 * gauss_half_mass); [lra|].
  unfold Rdiv. rewrite Rmult_assoc, Rinv_l by lra. lra.
Qed.

Lemma norm_cdf_lt_1 x : norm_cdf x < 1.
Proof. pose proof (norm_cdf_pos (- x)) as H. rewrite norm_cdf_sym in H. lra. Qed.

Lemma norm_cdf_incr x y : x < y -> norm_cdf x < norm_cdf y.
Proof.
  intro H. apply (deriv_pos_incr norm_cdf norm_pdf x y); auto.
  - intros; apply norm_cdf_deriv.
  - intros; apply norm_pdf_pos.
Qed.

Lemma norm_cdf_limit_left eps :
  0 < eps -> exists M, forall x, x < M -> norm_cdf x < eps.
Proof.
  intro Heps. pose proof gauss_half_mass_pos as Hm.
  destruct (gauss_area_limit (eps * (2 * gauss_half_mass))) as [M HM]; [nra|].
  exists (- M). intros x Hx.
  assert (H : gauss_half_mass - eps * (2 * gauss_half_mass) < gauss_area (- x)) by (apply HM; lra).
  rewrite gauss_area_odd in H. unfold norm_cdf. rewrite sqrt_2PI.
  assert (gauss_area x / (2 * gauss_half_mass) < eps - / 2); [|lra].
  apply Rmult_lt_reg_r with (2 * gauss_half_mass); [lra|].
  unfold Rdiv. rewrite Rmult_assoc, Rinv_l by lra. lra.
Qed.

Lemma norm_cdf_limit_right eps :
  0 < eps -> exists M, forall x, M < x -> 1 - eps < norm_cdf x.
Proof.
  intro Heps. destruct (norm_cdf_limit_left eps Heps) as [M HM].
  exists (- M). intros x Hx. pose proof (HM (- x)) as H.
  rewrite norm_cdf_sym in H. lra.
Qed.

(** Mills' bound on the lower tail. *)
Lemma mills_deriv y :
  y < 0 ->
  derivable_pt_lim (fun t => norm_pdf t / (- t) - norm_cdf t) y (norm_pdf y / Rsqr y).
Proof.
  intro Hy.
  replace (norm_pdf y / Rsqr y)
    with ((- y * norm_pdf y * (- y) - (- 1) * norm_pdf y) / Rsqr (- y) - norm_pdf y).
  2:{ unfold Rsqr. field. lra. }
  apply (derivable_pt_lim_minus (fun t => norm_pdf t / (- t)) norm_cdf).
  - apply (derivable_pt_lim_div norm_pdf (fun t => - t)).
    + apply norm_pdf_deriv.
    + apply (derivable_pt_lim_opp id y 1). apply derivable_pt_lim_id.
    + lra.
  - apply norm_cdf_deriv.
Qed.

Lemma mills_bound x : x < 0 -> - x * norm_cdf x <= norm_pdf x.
Proof.
  intro Hx.
  set (h := fun t => norm_pdf t / (- t) - norm_cdf t).
  assert (Hh : 0 <= h x).
  { apply Rnot_lt_le. intro Hneg.
    destruct (norm_cdf_limit_left (- h x)) as [M HM]; [lra|].
    set (y := Rmin M x - 1).
    assert (Hyx : y < x) by (unfold y; pose proof (Rmin_r M x); lra).
    assert (HyM : y < M) by (unfold y; pose proof (Rmin_l M x); lra).
    assert (Hinc : h y < h x).
    { apply (deriv_pos_incr h (fun t => norm_pdf t / Rsqr t) y x); auto.
      - intros c Hc. apply mills_deriv. lra.
      - intros c Hc. apply Rdiv_lt_0_compat; [apply norm_pdf_pos|].
        apply Rsqr_pos_lt. lra. }
    assert (0 < norm_pdf y / (- y)).
    { apply Rdiv_lt_0_compat; [apply norm_pdf_pos | lra]. }
    pose proof (HM y HyM). unfold h in *. lra. }
  unfold h in Hh.
  assert (norm_cdf x <= norm_pdf x / (- x)) by lra.
  apply Rmult_le_compat_l with (r := - x) in H; [|lra].
  replace (- x * (norm_pdf x / - x)) with (norm_pdf x) in H by (field; lra).
  exact H.
Qed.

Lemma hazard_nonneg x : 0 <= norm_pdf x + x * norm_cdf x.
Proof.
  destruct (Rlt_dec x 0) as [Hx|Hx].
  - pose proof (mills_bound x Hx). lra.
  - pose proof (norm_pdf_pos x). pose proof (norm_cdf_pos x). nra.
Qed.

Lemma cdf_over_gauss_deriv x :
  derivable_pt_lim (fun t => norm_cdf t * exp (t * t / 2)) x
    (exp (x * x / 2) * (norm_pdf x + x * norm_cdf x)).
Proof.
  replace (exp (x * x / 2) * (norm_pdf x + x * norm_cdf x))
    with (norm_pdf x * exp (x * x / 2) + norm_cdf x * (exp (x * x / 2) * ((1 * x + x * 1) * / 2)))
    by field.
  apply (derivable_pt_lim_mult norm_cdf (fun t => exp (t * t / 2))).
  - apply norm_cdf_deriv.
  - apply (derivable_pt_lim_comp (fun t => t * t / 2) exp).
    + apply (derivable_pt_lim_scal_right (fun t => t * t) x (1 * x + x * 1) (/ 2)).
      apply (derivable_pt_lim_mult id id); apply derivable_pt_lim_id.
    + apply derivable_pt_lim_exp.
Qed.

Lemma cdf_over_gauss_incr x y :
  x <= y -> norm_cdf x * exp (x * x / 2) <= norm_cdf y * exp (y * y / 2).
Proof.
  intro Hxy.
  apply (deriv_nonneg_incr (fun t => norm_cdf t * exp (t * t / 2))
           (fun t => exp (t * t / 2) * (norm_pdf t + t * norm_cdf t)) x y); auto.
  - intros; apply cdf_over_gauss_deriv.
  - intros c _. apply Rmult_le_pos; [left; apply exp_pos | apply hazard_nonneg].
Qed.

(** ** Uniqueness *)

Lemma small_is_zero (k b : R) : 0 <= b -> (forall eps, 0 < eps -> Rabs k <= eps * b) -> k = 0.
Proof.
  intros Hb H. destruct (Req_dec k 0) as [Hk|Hk]; [exact Hk | exfalso].
  assert (Hpos : 0 < Rabs k) by (apply Rabs_pos_lt; exact Hk).
  pose proof (H (Rabs k / (2 * (b + 1)))) as H1.
  assert (0 < Rabs k / (2 * (b + 1))) by (apply Rdiv_lt_0_compat; lra).
  specialize (H1 H0).
  assert (Rabs k / (2 * (b + 1)) * b <= Rabs k / 2).
  { unfold Rdiv. rewrite Rinv_mult.
    replace (Rabs k * (/ 2 * / (b + 1)) * b) with (Rabs k * / 2 * (b * / (b + 1))) by ring.
    assert (b * / (b + 1) <= 1).
    { apply Rmult_le_reg_r with (b + 1); [lra|].
      rewrite Rmult_assoc, Rinv_l by lra. lra. }
    assert (0 <= Rabs k * / 2) by lra. nra. }
  lra.
Qed.

(** [norm_cdf] is the only distribution function whose density is a
    multiple of the bell curve. *)
Lemma norm_cdf_unique (F : R -> R) (c : R) :
  (forall x, derivable_pt_lim F x (c * gauss x)) ->
  (forall eps, 0 < eps -> exists M, forall x, x < M -> Rabs (F x) < eps) ->
  (forall eps, 0 < eps -> exists M, forall x, M < x -> Rabs (F x - 1) < eps) ->
  forall x, F x = norm_cdf x.
Proof.
  intros HF Hleft Hright.
  pose proof gauss_half_mass_pos as Hm.
  set (q := c * (2 * gauss_half_mass)).
  set (H := fun x => F x - q * norm_cdf x).
  assert (HH : forall x, derivable_pt_lim H x ((fun _ => 0) x)).
  { intro x. replace 0 with (c * gauss x - q * norm_pdf x).
    - apply (derivable_pt_lim_minus F (fun y => q * norm_cdf y)); [apply HF|].
      apply (derivable_pt_lim_scal norm_cdf q). apply norm_cdf_deriv.
    - unfold q, norm_pdf. rewrite sqrt_2PI. field. lra. }
  assert (Hconst : forall x, H x = H 0).
  { intro x. destruct (Rle_dec 0 x) as [Hx|Hx].
    - apply (deriv_zero_const H (fun _ => 0) 0 x); auto.
    - symmetry. apply (deriv_zero_const H (fun _ => 0) x 0); auto. lra. }
  assert (Hk : H 0 = 0).
  { apply (small_is_zero _ (1 + Rabs q)); [pose proof (Rabs_pos q); lra|].
    intros eps Heps.
    destruct (Hleft eps Heps) as [M1 HM1].
    destruct (norm_cdf_limit_left eps Heps) as [M2 HM2].
    set (x := Rmin M1 M2 - 1).
    assert (Hx1 : x < M1) by (unfold x; pose proof (Rmin_l M1 M2); lra).
    assert (Hx2 : x < M2) by (unfold x; pose proof (Rmin_r M1 M2); lra).
    rewrite <- (Hconst x). unfold H.
    pose proof (HM1 x Hx1) as B1. pose proof (HM2 x Hx2) as B2.
    pose proof (norm_cdf_pos x) as B3.
    assert (Rabs (q * norm_cdf x) <= Rabs q * eps).
    { rewrite Rabs_mult, (Rabs_right (norm_cdf x)) by lra.
      apply Rmult_le_compat_l; [apply Rabs_pos | lra]. }
    pose proof (Rabs_triang (F x) (- (q * norm_cdf x))) as Ht.
    rewrite Rabs_Ropp in Ht. unfold Rminus. lra. }
  assert (HFq : forall x, F x = q * norm_cdf x).
  { intro x. pose proof (Hconst x) as Hx. unfold H in Hx at 1. lra. }
  assert (Hq : q - 1 = 0).
  { apply (small_is_zero _ (1 + Rabs q)); [pose proof (Rabs_pos q); lra|].
    intros eps Heps.
    destruct (Hright eps Heps) as [M1 HM1].
    destruct (norm_cdf_limit_right eps Heps) as [M2 HM2].
    set (x := Rmax M1 M2 + 1).
    assert (Hx1 : M1 < x) by (unfold x; pose proof (Rmax_l M1 M2); lra).
    assert (Hx2 : M2 < x) by (unfold x; pose proof (Rmax_r M1 M2); lra).
    pose proof (HM1 x Hx1) as B1. pose proof (HM2 x Hx2) as B2.
    pose proof (norm_cdf_lt_1 x) as B3.
    replace (q - 1) with ((F x - 1) + q * (1 - norm_cdf x)) by (rewrite HFq; ring).
    assert (Rabs (q * (1 - norm_cdf x)) <= Rabs q * eps).
    { rewrite Rabs_mult, (Rabs_right (1 - norm_cdf x)) by lra.
      apply Rmult_le_compat_l; [apply Rabs_pos | lra]. }
    pose proof (Rabs_triang (F x - 1) (q * (1 - norm_cdf x))) as Ht. lra. }
  intro x. rewrite HFq. replace q with 1 by lra. ring.
Qed.

(** * The program *)

(** ** Exceptions and results *)

Inductive exn : Type :=
| ZeroDivisionError
| ValueError
| IndexError.

Inductive result (A : Type) : Type :=
| Ok (a : A)
| Raise (e : exn).

Arguments Ok {A} a.
Arguments Raise {A} e.

Definition rbind {A B : Type} (m : result A) (k : A -> result B) : result B :=
  match m with
  | Ok a => k a
  | Raise e => Raise e
  end.

Declare Scope result_scope.
Delimit Scope result_scope with result.
Notation "x <- m ;; k" := (rbind m (fun x => k))
  (at level 61, m at next level, right associativity) : result_scope.

Definition raises {A : Type} (m : result A) : Prop := exists e, m = Raise e.

(** ** numpy scalars *)

Inductive float64 : Type :=
| Fin (x : R)
| PInf
| NInf
| NaN.

(** The product of an infinity with the finite number [x] takes the sign
    of [x]; infinity times zero is NaN. *)
Definition inf_scaled (x : R) : float64 :=
  if Rlt_dec 0 x then PInf else if Rlt_dec x 0 then NInf else NaN.

Definition fneg (a : float64) : float64 :=
  match a with
  | Fin x => Fin (- x)
  | PInf => NInf
  | NInf => PInf
  | NaN => NaN
  end.

Definition fadd (a b : float64) : float64 :=
  match a, b with
  | NaN, _ | _, NaN => NaN
  | Fin x, Fin y => Fin (x + y)
  | PInf, NInf | NInf, PInf => NaN
  | PInf, _ | _, PInf => PInf
  | NInf, _ | _, NInf => NInf
  end.

Definition fsub (a b : float64) : float64 := fadd a (fneg b).

Definition fmul (a b : float64) : float64 :=
  match a, b with
  | NaN, _ | _, NaN => NaN
  | Fin x, Fin y => Fin (x * y)
  | Fin x, PInf | PInf, Fin x => inf_scaled x
  | Fin x, NInf | NInf, Fin x => inf_scaled (- x)
  | PInf, PInf | NInf, NInf => PInf
  | PInf, NInf | NInf, PInf => NInf
  end.

(** numpy's true division: dividing by zero gives an infinity or NaN (and a
    warning), never an exception. *)
Definition fdiv (a b : float64) : float64 :=
  match a, b with
  | NaN, _ | _, NaN => NaN
  | Fin x, Fin y => if Req_dec_T y 0 then inf_scaled x else Fin (x / y)
  | Fin _, PInf | Fin _, NInf => Fin 0
  | PInf, Fin y => if Rlt_dec y 0 then NInf else PInf
  | NInf, Fin y => if Rlt_dec y 0 then PInf else NInf
  | _, _ => NaN
  end.

(** [np.log] and [np.sqrt] applied to a Python float. *)
Definition np_log (x : R) : float64 :=
  if Rlt_dec 0 x then Fin (ln x) else if Rlt_dec x 0 then NaN else NInf.

Definition np_sqrt (x : R) : float64 :=
  if Rlt_dec x 0 then NaN else Fin (sqrt x).

Definition np_exp (a : float64) : float64 :=
  match a with
  | Fin x => Fin (exp x)
  | PInf => PInf
  | NInf => Fin 0
  | NaN => NaN
  end.

(** Python's [a / b] on floats. *)
Definition py_truediv (a b : R) : result R :=
  if Req_dec_T b 0 then Raise ZeroDivisionError else Ok (a / b).

(** [stats.norm.cdf] on a numpy scalar. *)
Definition stats_norm_cdf (a : float64) : float64 :=
  match a with
  | Fin x => Fin (norm_cdf x)
  | PInf => Fin 1
  | NInf => Fin 0
  | NaN => NaN
  end.

(** ** class BlackScholesModel *)

Record BlackScholesModel : Type := mkBlackScholesModel {
  S0 : R;
  r : R;
  sigma : R;
  T : R
}.

Section Pricer.
Local Open Scope result_scope.

(** [d1] as both methods compute it; [self.S0/K] is Python's division. *)
Definition d1_of (self : BlackScholesModel) (K : R) : result float64 :=
  q <- py_truediv (S0 self) K ;;
  Ok (fdiv (fadd (np_log q) (Fin ((r self + 0.5 * sigma self ^ 2) * T self)))
           (fmul (Fin (sigma self)) (np_sqrt (T self)))).

Definition d2_of (self : BlackScholesModel) (d1 : float64) : float64 :=
  fsub d1 (fmul (Fin (sigma self)) (np_sqrt (T self))).

Definition european_call_price (self : BlackScholesModel) (K : R) : result float64 :=
  d1 <- d1_of self K ;;
  let d2 := d2_of self d1 in
  let call_price :=
    fsub (fmul (Fin (S0 self)) (stats_norm_cdf d1))
         (fmul (fmul (Fin K) (np_exp (Fin (- r self * T self)))) (stats_norm_cdf d2)) in
  Ok call_price.

Definition european_put_price (self : BlackScholesModel) (K : R) : result float64 :=
  d1 <- d1_of self K ;;
  let d2 := d2_of self d1 in
  let put_price :=
    fsub (fmul (fmul (Fin K) (np_exp (Fin (- r self * T self)))) (stats_norm_cdf (fneg d2)))
         (fmul (Fin (S0 self)) (stats_norm_cdf (fneg d1))) in
  Ok put_price.

End Pricer.

(** The Black-Scholes formulas on the reals. *)
Definition bs_d1 (S0 r sigma T K : R) : R :=
  (ln (S0 / K) + (r + 0.5 * sigma ^ 2) * T) / (sigma * sqrt T).

Definition bs_d2 (S0 r sigma T K : R) : R :=
  bs_d1 S0 r sigma T K - sigma * sqrt T.

Definition bs_call (S0 r sigma T K : R) : R :=
  S0 * norm_cdf (bs_d1 S0 r sigma T K)
  - K * exp (- r * T) * norm_cdf (bs_d2 S0 r sigma T K).

Definition bs_put (S0 r sigma T K : R) : R :=
  K * exp (- r * T) * norm_cdf (- bs_d2 S0 r sigma T K)
  - S0 * norm_cdf (- bs_d1 S0 r sigma T K).

(** ** numpy arrays of two dimensions *)

Record ndarray : Type := mkndarray {
  shape : nat * nat;
  data : list (list float64)
}.

(** [data] holds [fst shape] rows of [snd shape] entries each. *)
Definition well_shaped (a : ndarray) : Prop :=
  length (data a) = fst (shape a) /\
  Forall (fun row => length row = snd (shape a)) (data a).

(** [a[p, i]] for indices within the shape. *)
Definition getitem (a : ndarray) (p i : nat) : option float64 :=
  match nth_error (data a) p with
  | Some row => nth_error row i
  | None => None
  end.

(** [np.zeros((n, m))]: negative dimensions are not allowed. *)
Definition np_zeros (n m : Z) : result ndarray :=
  if ((n <? 0) || (m <? 0))%Z then Raise ValueError
  else Ok (mkndarray (Z.to_nat n, Z.to_nat m)
                     (repeat (repeat (Fin 0) (Z.to_nat m)) (Z.to_nat n))).

(** An index on an axis of size [n]: negative indices count from the end,
    anything outside [-n, n) is an IndexError. *)
Definition axis_index (i : Z) (n : nat) : result nat :=
  if ((0 <=? i) && (i <? Z.of_nat n))%Z then Ok (Z.to_nat i)
  else if ((- Z.of_nat n <=? i) && (i <? 0))%Z then Ok (Z.to_nat (i + Z.of_nat n))
  else Raise IndexError.

Fixpoint list_set {A : Type} (l : list A) (j : nat) (x : A) : list A :=
  match l, j with
  | [], _ => []
  | _ :: t, O => x :: t
  | h :: t, S j' => h :: list_set t j' x
  end.

Fixpoint map2 {A B C : Type} (f : A -> B -> C) (l1 : list A) (l2 : list B) : list C :=
  match l1, l2 with
  | a :: t1, b :: t2 => f a b :: map2 f t1 t2
  | _, _ => []
  end.

(** [a[:, i]] *)
Definition get_column (a : ndarray) (i : Z) : result (list float64) :=
  (j <- axis_index i (snd (shape a)) ;;
   Ok (map (fun row => nth j row NaN) (data a)))%result.

(** [a[:, i] = v] for a vector [v]: its length must be the number of
    rows (it is, in every run of the program). *)
Definition set_column (a : ndarray) (i : Z) (v : list float64) : result ndarray :=
  (j <- axis_index i (snd (shape a)) ;;
   if Nat.eqb (length v) (fst (shape a))
   then Ok (mkndarray (shape a) (map2 (fun row x => list_set row j x) (data a) v))
   else Raise ValueError)%result.

(** [a[:, i] = x] for a scalar [x], broadcast over the rows. *)
Definition set_column_scalar (a : ndarray) (i : Z) (x : float64) : result ndarray :=
  set_column a i (repeat x (fst (shape a))).

(** Elementwise product of two vectors.  The program multiplies two
    columns of [n_paths] entries, so the lengths agree in every run. *)
Definition vec_mul (u v : list float64) : result (list float64) :=
  if Nat.eqb (length u) (length v) then Ok (map2 fmul u v) else Raise ValueError.

(** ** The random source and the statement monad

    The global generator of [np.random] is a stream of finite draws and the
    number of draws taken so far; each call of [standard_normal] takes the
    next [n] of them. *)

Record rng : Type := mkrng {
  draws : nat -> R;
  consumed : nat
}.

Definition M (A : Type) : Type := rng -> result (A * rng).

Definition ret {A : Type} (a : A) : M A := fun g => Ok (a, g).

Definition bind {A B : Type} (m : M A) (k : A -> M B) : M B :=
  fun g => match m g with
           | Ok (a, g') => k a g'
           | Raise e => Raise e
           end.

Definition lift {A : Type} (m : result A) : M A :=
  fun g => match m with
           | Ok a => Ok (a, g)
           | Raise e => Raise e
           end.

Declare Scope stmt_scope.
Delimit Scope stmt_scope with stmt.
Notation "x <- m ;; k" := (bind m (fun x => k))
  (at level 61, m at next level, right associativity) : stmt_scope.

(** [np.random.standard_normal(n)] *)
Definition standard_normal (n : Z) : M (list float64) :=
  fun g =>
    if (n <? 0)%Z then Raise ValueError
    else Ok (map (fun k => Fin (draws g (consumed g + k))) (seq 0 (Z.to_nat n)),
             mkrng (draws g) (consumed g + Z.to_nat n)).

(** [range(lo, hi)] *)
Definition py_range (lo hi : Z) : list Z :=
  map (fun k => (lo + Z.of_nat k)%Z) (seq 0 (Z.to_nat (hi - lo))).

(** [for x in xs: s = body(x, s)] *)
Fixpoint for_each {A St : Type} (xs : list A) (body : A -> St -> M St) (s : St) : M St :=
  match xs with
  | [] => ret s
  | x :: xs' => bind (body x s) (for_each xs' body)
  end.

Example py_range_steps : py_range 1 (3 + 1) = [1; 2; 3]%Z.
Proof. reflexivity. Qed.

Example axis_index_first : axis_index 0 4 = Ok 0%nat.
Proof. reflexivity. Qed.

Example axis_index_from_end : axis_index (-1) 4 = Ok 3%nat.
Proof. reflexivity. Qed.

Example axis_index_outside : axis_index 0 0 = Raise IndexError.
Proof. reflexivity. Qed.

Example list_set_inside : list_set [1; 2; 3]%nat 1 9%nat = [1; 9; 3]%nat.
Proof. reflexivity. Qed.

Example np_zeros_negative : np_zeros (-1) 3 = Raise ValueError.
Proof. reflexivity. Qed.

Example np_zeros_empty : np_zeros 0 3 = Ok (mkndarray (0%nat, 3%nat) []).
Proof. reflexivity. Qed.

(** ** monte_carlo_simulation *)

Section Simulation.
Local Open Scope stmt_scope.

(** One pass of the loop body for step [i]. *)
Definition simulation_step (r sigma dt : R) (n_paths : Z) (i : Z) (paths : ndarray)
  : M ndarray :=
  z <- standard_normal n_paths ;;
  prev <- lift (get_column paths (i - 1)) ;;
  let growth :=
    map (fun zk => np_exp (fadd (Fin ((r - 0.5 * sigma ^ 2) * dt))
                                (fmul (fmul (Fin sigma) (np_sqrt dt)) zk))) z in
  col <- lift (vec_mul prev growth) ;;
  lift (set_column paths i col).

Definition monte_carlo_simulation (S0 r sigma T : R) (n_paths n_steps : Z) : M ndarray :=
  dt <- lift (py_truediv T (IZR n_steps)) ;;
  paths <- lift (np_zeros n_paths (n_steps + 1)) ;;
  paths <- lift (set_column_scalar paths 0 (Fin S0)) ;;
  paths <- for_each (py_range 1 (n_steps + 1)) (simulation_step r sigma dt n_paths) paths ;;
  ret paths.

End Simulation.

(** ** Inputs of the test suite *)

(** The model of the test suite: S0 = 100, r = 0.05, sigma = 0.2, T = 1. *)
Definition test_model : BlackScholesModel := mkBlackScholesModel 100 0.05 0.2 1.

(** A generator for the examples: every draw is zero. *)
Definition zero_rng : rng := mkrng (fun _ => 0) 0.

(** * Properties of the operations *)

(** ** Primitive operations on arguments in their domain *)

Lemma py_truediv_ok (a b : R) : b <> 0 -> py_truediv a b = Ok (a / b).
Proof. intro Hb. unfold py_truediv. destruct (Req_dec_T b 0); [contradiction | reflexivity]. Qed.

Lemma py_truediv_zero (a : R) : py_truediv a 0 = Raise ZeroDivisionError.
Proof. unfold py_truediv. destruct (Req_dec_T 0 0) as [_|H]; [reflexivity | contradiction H; reflexivity]. Qed.

Lemma np_log_pos (x : R) : 0 < x -> np_log x = Fin (ln x).
Proof. intro Hx. unfold np_log. destruct (Rlt_dec 0 x); [reflexivity | contradiction]. Qed.

Lemma np_log_neg (x : R) : x < 0 -> np_log x = NaN.
Proof.
  intro Hx. unfold np_log.
  destruct (Rlt_dec 0 x); [lra|]. destruct (Rlt_dec x 0); [reflexivity | contradiction].
Qed.

Lemma np_sqrt_nonneg (x : R) : 0 <= x -> np_sqrt x = Fin (sqrt x).
Proof. intro Hx. unfold np_sqrt. destruct (Rlt_dec x 0); [lra | reflexivity]. Qed.

Lemma fdiv_fin (x y : R) : y <> 0 -> fdiv (Fin x) (Fin y) = Fin (x / y).
Proof. intro Hy. simpl. destruct (Req_dec_T y 0); [contradiction | reflexivity]. Qed.

Lemma vol_sqrt_pos (sigma T : R) : 0 < sigma -> 0 < T -> 0 < sigma * sqrt T.
Proof. intros Hs HT. apply Rmult_lt_0_compat; [exact Hs | apply sqrt_lt_R0; exact HT]. Qed.

(** ** The pricer on valid parameters *)

Section ValidPricer.
Variables (self : BlackScholesModel) (K : R).
Hypothesis S0_pos : 0 < S0 self.
Hypothesis sigma_pos : 0 < sigma self.
Hypothesis T_pos : 0 < T self.
Hypothesis K_pos : 0 < K.

Lemma d1_of_valid :
  d1_of self K = Ok (Fin (bs_d1 (S0 self) (r self) (sigma self) (T self) K)).
Proof.
  unfold d1_of. rewrite py_truediv_ok by lra. simpl.
  rewrite np_log_pos by (apply Rdiv_lt_0_compat; assumption).
  rewrite np_sqrt_nonneg by lra.
  cbn [fadd fmul]. rewrite fdiv_fin; [reflexivity|].
  pose proof (vol_sqrt_pos _ _ sigma_pos T_pos). lra.
Qed.

Lemma european_call_price_valid :
  european_call_price self K =
  Ok (Fin (bs_call (S0 self) (r self) (sigma self) (T self) K)).
Proof.
  unfold european_call_price. rewrite d1_of_valid. simpl.
  unfold d2_of. rewrite np_sqrt_nonneg by lra. reflexivity.
Qed.

Lemma european_put_price_valid :
  european_put_price self K =
  Ok (Fin (bs_put (S0 self) (r self) (sigma self) (T self) K)).
Proof.
  unfold european_put_price. rewrite d1_of_valid. simpl.
  unfold d2_of. rewrite np_sqrt_nonneg by lra. reflexivity.
Qed.

End ValidPricer.

(** ** The Black-Scholes formulas *)

Section BlackScholes.
Variables (S0 r sigma T K : R).
Hypothesis S0_pos : 0 < S0.
Hypothesis sigma_pos : 0 < sigma.
Hypothesis T_pos : 0 < T.
Hypothesis K_pos : 0 < K.

Let d1 := bs_d1 S0 r sigma T K.
Let d2 := bs_d2 S0 r sigma T K.

Lemma bs_parity : bs_call S0 r sigma T K - bs_put S0 r sigma T K = S0 - K * exp (- r * T).
Proof.
  unfold bs_call, bs_put. rewrite !norm_cdf_sym. ring.
Qed.

Lemma bs_d2_le_d1 : d2 <= d1.
Proof.
  unfold d2, bs_d2. fold d1. pose proof (vol_sqrt_pos _ _ sigma_pos T_pos). lra.
Qed.

Lemma bs_square_gap : (d2 * d2 - d1 * d1) / 2 = - ln (S0 / K) - r * T.
Proof.
  pose proof (vol_sqrt_pos _ _ sigma_pos T_pos) as Hv.
  assert (Hsq : sqrt T * sqrt T = T) by (apply sqrt_sqrt; lra).
  assert (Hd1 : d1 * (sigma * sqrt T) = ln (S0 / K) + (r + 0.5 * sigma ^ 2) * T).
  { unfold d1, bs_d1. field. pose proof (sqrt_lt_R0 T T_pos). split; lra. }
  replace (d2 * d2 - d1 * d1)
    with (- 2 * (d1 * (sigma * sqrt T)) + sigma * sigma * (sqrt T * sqrt T))
    by (unfold d2, bs_d2; fold d1; ring).
  rewrite Hd1, Hsq. simpl. lra.
Qed.

Lemma bs_discounted_strike : K * exp (- r * T) = S0 * exp ((d2 * d2 - d1 * d1) / 2).
Proof.
  rewrite bs_square_gap.
  replace (- ln (S0 / K) - r * T) with (- ln (S0 / K) + - r * T) by ring.
  rewrite exp_plus, exp_Ropp, exp_ln by (apply Rdiv_lt_0_compat; assumption).
  field. lra.
Qed.

Lemma exp_opp_cancel (a : R) : exp (- a) * exp a = 1.
Proof. rewrite <- exp_plus, Rplus_opp_l. apply exp_0. Qed.

Lemma bs_call_factored :
  bs_call S0 r sigma T K =
  S0 * exp (- (d1 * d1 / 2))
  * (norm_cdf d1 * exp (d1 * d1 / 2) - norm_cdf d2 * exp (d2 * d2 / 2)).
Proof.
  unfold bs_call. fold d1 d2. rewrite bs_discounted_strike.
  replace ((d2 * d2 - d1 * d1) / 2) with (- (d1 * d1 / 2) + d2 * d2 / 2) by field.
  rewrite exp_plus.
  replace (S0 * norm_cdf d1)
    with (S0 * norm_cdf d1 * (exp (- (d1 * d1 / 2)) * exp (d1 * d1 / 2)))
    by (rewrite exp_opp_cancel; ring).
  ring.
Qed.

Lemma bs_put_factored :
  bs_put S0 r sigma T K =
  S0 * exp (- (d1 * d1 / 2))
  * (norm_cdf (- d2) * exp (- d2 * - d2 / 2) - norm_cdf (- d1) * exp (- d1 * - d1 / 2)).
Proof.
  unfold bs_put. fold d1 d2. rewrite bs_discounted_strike.
  replace (- d2 * - d2) with (d2 * d2) by ring.
  replace (- d1 * - d1) with (d1 * d1) by ring.
  replace ((d2 * d2 - d1 * d1) / 2) with (- (d1 * d1 / 2) + d2 * d2 / 2) by field.
  rewrite exp_plus.
  replace (S0 * norm_cdf (- d1))
    with (S0 * norm_cdf (- d1) * (exp (- (d1 * d1 / 2)) * exp (d1 * d1 / 2)))
    by (rewrite exp_opp_cancel; ring).
  ring.
Qed.

Lemma bs_call_nonneg : 0 <= bs_call S0 r sigma T K.
Proof.
  rewrite bs_call_factored.
  apply Rmult_le_pos.
  - apply Rmult_le_pos; [lra | left; apply exp_pos].
  - pose proof (cdf_over_gauss_incr d2 d1 bs_d2_le_d1). lra.
Qed.

Lemma bs_put_nonneg : 0 <= bs_put S0 r sigma T K.
Proof.
  rewrite bs_put_factored.
  apply Rmult_le_pos.
  - apply Rmult_le_pos; [lra | left; apply exp_pos].
  - assert (H : - d1 <= - d2) by (pose proof bs_d2_le_d1; lra).
    pose proof (cdf_over_gauss_incr (- d1) (- d2) H). lra.
Qed.

End BlackScholes.

(** ** Lists indexed by [seq] *)

Lemma nth_map_seq {A : Type} (h : nat -> A) (d : A) (L s j : nat) :
  (j < L)%nat -> nth j (map h (seq s L)) d = h (s + j)%nat.
Proof.
  revert s j. induction L as [|L IH]; intros s j Hj; [lia|].
  destruct j as [|j]; simpl.
  - f_equal. lia.
  - rewrite IH by lia. f_equal. lia.
Qed.

Lemma nth_error_map_seq {A : Type} (h : nat -> A) (L s j : nat) :
  (j < L)%nat -> nth_error (map h (seq s L)) j = Some (h (s + j)%nat).
Proof.
  revert s j. induction L as [|L IH]; intros s j Hj; [lia|].
  destruct j as [|j]; simpl.
  - do 2 f_equal. lia.
  - rewrite IH by lia. do 2 f_equal. lia.
Qed.

Lemma map2_map_map {A B C D : Type} (f : B -> C -> D) (a : A -> B) (b : A -> C) (l : list A) :
  map2 f (map a l) (map b l) = map (fun x => f (a x) (b x)) l.
Proof. induction l as [|x l IH]; simpl; [reflexivity | rewrite IH; reflexivity]. Qed.

Lemma list_set_map_seq {A : Type} (h : nat -> A) (x : A) (L s i : nat) :
  list_set (map h (seq s L)) i x =
  map (fun j => if Nat.eqb j (s + i) then x else h j) (seq s L).
Proof.
  revert s i. induction L as [|L IH]; intros s i; [reflexivity|].
  destruct i as [|i]; simpl.
  - replace (s + 0)%nat with s by lia. rewrite Nat.eqb_refl. f_equal.
    apply map_ext_in. intros j Hj. apply in_seq in Hj.
    destruct (Nat.eqb_spec j s); [lia | reflexivity].
  - destruct (Nat.eqb_spec s (s + S i)); [lia|]. f_equal.
    rewrite IH. apply map_ext. intro j.
    replace (S s + i)%nat with (s + S i)%nat by lia. reflexivity.
Qed.

Lemma repeat_map_seq {A : Type} (x : A) (L s : nat) :
  repeat x L = map (fun _ => x) (seq s L).
Proof. revert s. induction L as [|L IH]; intro s; simpl; [reflexivity | f_equal; apply IH]. Qed.

Lemma axis_index_nat (j n : nat) : (j < n)%nat -> axis_index (Z.of_nat j) n = Ok j.
Proof.
  intro Hj. unfold axis_index.
  replace ((0 <=? Z.of_nat j) && (Z.of_nat j <? Z.of_nat n))%Z with true.
  - rewrite Nat2Z.id. reflexivity.
  - symmetry. apply andb_true_intro. split; [apply Z.leb_le | apply Z.ltb_lt]; lia.
Qed.

(** ** The simulation in closed form *)

Section ClosedForm.
Variables (S0 r sigma dt : R) (g : rng) (n m : nat).

(** The factor applied to path [p] at step [j + 1]. *)
Definition growth_factor (p j : nat) : float64 :=
  np_exp (fadd (Fin ((r - 0.5 * sigma ^ 2) * dt))
               (fmul (fmul (Fin sigma) (np_sqrt dt))
                     (Fin (draws g (consumed g + (j * n + p))%nat)))).

(** Entry [(p, j)] of the result. *)
Fixpoint path_entry (p j : nat) : float64 :=
  match j with
  | O => Fin S0
  | S j' => fmul (path_entry p j') (growth_factor p j')
  end.

(** The array after the first [k] steps: later columns are still zero. *)
Definition partial_row (k p : nat) : list float64 :=
  map (fun j => if Nat.leb j k then path_entry p j else Fin 0) (seq 0 (S m)).

Definition partial_paths (k : nat) : ndarray :=
  mkndarray (n, S m) (map (partial_row k) (seq 0 n)).

(** The generator after [k] steps. *)
Definition advanced (k : nat) : rng := mkrng (draws g) (consumed g + k * n).

Definition ensemble : ndarray :=
  mkndarray (n, S m) (map (fun p => map (path_entry p) (seq 0 (S m))) (seq 0 n)).

Lemma partial_paths_full : partial_paths m = ensemble.
Proof.
  unfold partial_paths, ensemble, partial_row. f_equal.
  apply map_ext. intro p. apply map_ext_in. intros j Hj. apply in_seq in Hj.
  destruct (Nat.leb_spec j m); [reflexivity | lia].
Qed.

Lemma initial_paths :
  (a <- np_zeros (Z.of_nat n) (Z.of_nat m + 1) ;; set_column_scalar a 0 (Fin S0))%result
  = Ok (partial_paths 0).
Proof.
  unfold np_zeros.
  replace ((Z.of_nat n <? 0) || (Z.of_nat m + 1 <? 0))%Z with false.
  2:{ symmetry. apply orb_false_intro; apply Z.ltb_ge; lia. }
  replace (Z.to_nat (Z.of_nat m + 1)) with (S m) by lia. rewrite Nat2Z.id.
  cbn [rbind]. unfold set_column_scalar, set_column. cbn [shape data fst snd].
  rewrite (axis_index_nat 0 (S m) (Nat.lt_0_succ m) : axis_index 0 (S m) = Ok 0%nat).
  cbn [rbind].
  rewrite repeat_length, Nat.eqb_refl. unfold partial_paths. do 2 f_equal.
  rewrite (repeat_map_seq (repeat (Fin 0) (S m)) n 0), (repeat_map_seq (Fin S0) n 0).
  rewrite map2_map_map. apply map_ext. intros p.
  rewrite (repeat_map_seq (Fin 0) (S m) 0), list_set_map_seq.
  unfold partial_row. apply map_ext. intro j.
  destruct j; reflexivity.
Qed.

Lemma simulation_step_partial (k : nat) :
  (k < m)%nat ->
  simulation_step r sigma dt (Z.of_nat n) (1 + Z.of_nat k) (partial_paths k) (advanced k)
  = Ok (partial_paths (S k), advanced (S k)).
Proof.
  intro Hk. unfold simulation_step, bind, standard_normal.
  replace (Z.of_nat n <? 0)%Z with false by (symmetry; apply Z.ltb_ge; lia).
  rewrite Nat2Z.id.
  replace (1 + Z.of_nat k - 1)%Z with (Z.of_nat k) by lia.
  unfold lift, get_column. cbn [partial_paths shape data fst snd].
  rewrite axis_index_nat by lia. cbn [rbind].
  rewrite !map_map. unfold vec_mul. rewrite !length_map, Nat.eqb_refl.
  unfold set_column. cbn [partial_paths shape data fst snd].
  replace (1 + Z.of_nat k)%Z with (Z.of_nat (S k)) by lia.
  rewrite axis_index_nat by lia. cbn [rbind].
  rewrite map2_map_map, length_map, length_seq, Nat.eqb_refl.
  f_equal. f_equal.
  - unfold partial_paths. f_equal. rewrite map2_map_map.
    apply map_ext. intro p. unfold partial_row at 1. rewrite list_set_map_seq.
    unfold partial_row. apply map_ext_in. intros j Hj. apply in_seq in Hj.
    cbn [Nat.add]. destruct (Nat.eqb_spec j (S k)) as [->|Hne].
    + rewrite Nat.leb_refl. cbn [path_entry]. f_equal.
      * rewrite nth_map_seq by lia. cbn [Nat.add].
        rewrite Nat.leb_refl. reflexivity.
      * unfold growth_factor, advanced. cbn [draws consumed].
        do 5 f_equal. lia.
    + destruct (Nat.leb_spec j k), (Nat.leb_spec j (S k)); try reflexivity; lia.
  - unfold advanced. cbn [draws consumed]. f_equal. lia.
Qed.

End ClosedForm.

Section ClosedFormRun.
Variables (S0 r sigma dt : R) (g : rng) (n m : nat).

Lemma advanced_0 : advanced g n 0 = g.
Proof. unfold advanced. destruct g as [d c]. cbn [draws consumed]. f_equal. lia. Qed.

Lemma simulation_loop (c k : nat) :
  (k + c = m)%nat ->
  for_each (map (fun j => (1 + Z.of_nat j)%Z) (seq k c))
           (simulation_step r sigma dt (Z.of_nat n))
           (partial_paths S0 r sigma dt g n m k) (advanced g n k)
  = Ok (partial_paths S0 r sigma dt g n m m, advanced g n m).
Proof.
  revert k. induction c as [|c IH]; intros k Hk.
  - replace k with m by lia. reflexivity.
  - cbn [seq map for_each]. unfold bind at 1.
    rewrite simulation_step_partial by lia.
    apply IH. lia.
Qed.

Lemma monte_carlo_simulation_nat (T : R) :
  (1 <= m)%nat ->
  T / IZR (Z.of_nat m) = dt ->
  monte_carlo_simulation S0 r sigma T (Z.of_nat n) (Z.of_nat m) g
  = Ok (ensemble S0 r sigma dt g n m, advanced g n m).
Proof.
  intros Hm Hdt. unfold monte_carlo_simulation, bind, lift.
  rewrite py_truediv_ok, Hdt by (apply not_0_IZR; lia).
  pose proof (initial_paths S0 r sigma dt g n m) as Hinit. unfold rbind in Hinit.
  destruct (np_zeros (Z.of_nat n) (Z.of_nat m + 1)) as [a|e]; [|discriminate].
  rewrite Hinit. unfold py_range.
  replace (Z.to_nat (Z.of_nat m + 1 - 1)) with m by lia.
  pose proof (simulation_loop m 0 (Nat.add_0_l m)) as Hloop.
  rewrite advanced_0 in Hloop. rewrite Hloop.
  unfold ret. rewrite partial_paths_full. reflexivity.
Qed.

End ClosedFormRun.

(** The simulation on a non-negative number of paths and at least one step. *)
Lemma monte_carlo_simulation_closed_form (S0 r sigma T : R) (n_paths n_steps : Z) (g : rng) :
  (0 <= n_paths)%Z -> (1 <= n_steps)%Z ->
  monte_carlo_simulation S0 r sigma T n_paths n_steps g
  = Ok (ensemble S0 r sigma (T / IZR n_steps) g (Z.to_nat n_paths) (Z.to_nat n_steps),
        advanced g (Z.to_nat n_paths) (Z.to_nat n_steps)).
Proof.
  intros Hp Hs.
  rewrite <- (Z2Nat.id n_paths Hp) at 1.
  rewrite <- (Z2Nat.id n_steps) at 1 by lia.
  apply monte_carlo_simulation_nat; [lia|].
  rewrite Z2Nat.id by lia. reflexivity.
Qed.

(** ** Entries of the ensemble *)

Lemma ensemble_getitem (S0 r sigma dt : R) (g : rng) (n m p j : nat) :
  (p < n)%nat -> (j <= m)%nat ->
  getitem (ensemble S0 r sigma dt g n m) p j = Some (path_entry S0 r sigma dt g n p j).
Proof.
  intros Hp Hj. unfold getitem, ensemble. cbn [data].
  rewrite nth_error_map_seq by exact Hp. rewrite nth_error_map_seq by lia.
  reflexivity.
Qed.

Lemma ensemble_well_shaped (S0 r sigma dt : R) (g : rng) (n m : nat) :
  well_shaped (ensemble S0 r sigma dt g n m).
Proof.
  unfold well_shaped, ensemble. cbn [shape data fst snd]. split.
  - rewrite length_map, length_seq. reflexivity.
  - apply Forall_forall. intros row Hrow. apply in_map_iff in Hrow.
    destruct Hrow as [p [<- _]]. rewrite length_map, length_seq. reflexivity.
Qed.

Lemma ensemble_entries (S0 r sigma dt : R) (g : rng) (n m : nat) (row : list float64) (e : float64) :
  In row (data (ensemble S0 r sigma dt g n m)) -> In e row ->
  exists p j, (p < n)%nat /\ (j <= m)%nat /\ e = path_entry S0 r sigma dt g n p j.
Proof.
  unfold ensemble. cbn [data]. intros Hrow He.
  apply in_map_iff in Hrow. destruct Hrow as [p [<- Hp]]. apply in_seq in Hp.
  apply in_map_iff in He. destruct He as [j [<- Hj]]. apply in_seq in Hj.
  exists p, j. repeat split; lia.
Qed.

(** On a non-negative time step every entry is a real number. *)
Section RealPaths.
Variables (S0 r sigma dt : R) (g : rng) (n : nat).
Hypothesis dt_nonneg : 0 <= dt.

(** The standard normal draw used for path [p] at step [i] (from 1). *)
Definition draw_index (p i : nat) : nat := (consumed g + ((i - 1) * n + p))%nat.

Definition step_factor (p i : nat) : R :=
  exp ((r - 0.5 * sigma ^ 2) * dt + sigma * sqrt dt * draws g (draw_index p i)).

Fixpoint path_value (p j : nat) : R :=
  match j with
  | O => S0
  | S j' => path_value p j' * step_factor p (S j')
  end.

Lemma growth_factor_real (p j : nat) :
  growth_factor r sigma dt g n p j = Fin (step_factor p (S j)).
Proof.
  unfold growth_factor, step_factor, draw_index.
  rewrite np_sqrt_nonneg by exact dt_nonneg. cbn [fmul fadd np_exp].
  replace (S j - 1)%nat with j by lia. reflexivity.
Qed.

Lemma path_entry_real (p j : nat) :
  path_entry S0 r sigma dt g n p j = Fin (path_value p j).
Proof.
  induction j as [|j IH]; [reflexivity|].
  cbn [path_entry path_value]. rewrite IH, growth_factor_real. reflexivity.
Qed.

Lemma path_value_pos (p j : nat) : 0 < S0 -> 0 < path_value p j.
Proof.
  intro HS0. induction j as [|j IH]; [exact HS0|].
  cbn [path_value]. apply Rmult_lt_0_compat; [exact IH | apply exp_pos].
Qed.

End RealPaths.


Lemma path_value_drift (S0 r dt : R) (g : rng) (n p j : nat) :
  path_value S0 r 0 dt g n p j = S0 * exp (r * INR j * dt).
Proof.
  induction j as [|j IH].
  - cbn [path_value INR]. rewrite Rmult_0_r, Rmult_0_l, exp_0. ring.
  - cbn [path_value]. rewrite IH. unfold step_factor. rewrite S_INR.
    rewrite Rmult_assoc, <- exp_plus. f_equal. f_equal. simpl. ring.
Qed.

(** * Properties of the analytical pricer *)

(** C1. Put-call parity: on valid parameters (S0 > 0, sigma > 0, T > 0) and
    a strike K > 0 both prices are real numbers and the call price minus
    the put price is S0 - K * exp (- r * T), exactly. *)
Theorem put_call_parity (self : BlackScholesModel) (K : R) :
  0 < S0 self -> 0 < sigma self -> 0 < T self -> 0 < K ->
  exists call_price put_price : R,
    european_call_price self K = Ok (Fin call_price) /\
    european_put_price self K = Ok (Fin put_price) /\
    call_price - put_price = S0 self - K * exp (- r self * T self).
Proof.
  intros HS Hs HT HK.
  exists (bs_call (S0 self) (r self) (sigma self) (T self) K),
         (bs_put (S0 self) (r self) (sigma self) (T self) K).
  split; [apply european_call_price_valid; assumption|].
  split; [apply european_put_price_valid; assumption|].
  apply bs_parity.
Qed.

Lemma put_call_parity_witness :
  exists call_price put_price : R,
    european_call_price test_model 100 = Ok (Fin call_price) /\
    european_put_price test_model 100 = Ok (Fin put_price) /\
    call_price - put_price = S0 test_model - 100 * exp (- r test_model * T test_model).
Proof. apply (put_call_parity test_model 100); simpl; lra. Defined.

(** C5, amended: in exact real arithmetic (no rounding, no overflow, no
    underflow), on valid parameters (S0 > 0, sigma > 0, T > 0) and a strike
    K > 0 the call price and the put price are real numbers, and neither is
    negative.  The floating-point result can break this:
    [call_price_overflow_nan], below, gives a NaN call price. *)
Theorem prices_nonnegative (self : BlackScholesModel) (K : R) :
  0 < S0 self -> 0 < sigma self -> 0 < T self -> 0 < K ->
  exists call_price put_price : R,
    european_call_price self K = Ok (Fin call_price) /\
    european_put_price self K = Ok (Fin put_price) /\
    0 <= call_price /\ 0 <= put_price.
Proof.
  intros HS Hs HT HK.
  exists (bs_call (S0 self) (r self) (sigma self) (T self) K),
         (bs_put (S0 self) (r self) (sigma self) (T self) K).
  split; [apply european_call_price_valid; assumption|].
  split; [apply european_put_price_valid; assumption|].
  split; [apply bs_call_nonneg | apply bs_put_nonneg]; assumption.
Qed.

Lemma prices_nonnegative_witness :
  exists call_price put_price : R,
    european_call_price test_model 100 = Ok (Fin call_price) /\
    european_put_price test_model 100 = Ok (Fin put_price) /\
    0 <= call_price /\ 0 <= put_price.
Proof. apply (prices_nonnegative test_model 100); simpl; lra. Defined.

(** A strike of zero stops both methods at Python's division [S0/K]. *)
Lemma zero_strike_raises (self : BlackScholesModel) :
  european_call_price self 0 = Raise ZeroDivisionError /\
  european_put_price self 0 = Raise ZeroDivisionError.
Proof.
  unfold european_call_price, european_put_price, d1_of.
  rewrite py_truediv_zero. split; reflexivity.
Qed.

(** A negative strike goes through: the logarithm of the negative ratio is
    NaN, and NaN is carried to the price. *)
Lemma negative_strike_nan (self : BlackScholesModel) (K : R) :
  0 < S0 self -> K < 0 ->
  european_call_price self K = Ok NaN /\ european_put_price self K = Ok NaN.
Proof.
  intros HS HK.
  assert (Hq : S0 self / K < 0).
  { unfold Rdiv. assert (/ K < 0) by (apply Rinv_lt_0_compat; exact HK). nra. }
  assert (Hd1 : d1_of self K = Ok NaN).
  { unfold d1_of. rewrite py_truediv_ok by lra. cbn [rbind].
    rewrite np_log_neg by exact Hq. reflexivity. }
  unfold european_call_price, european_put_price. rewrite Hd1. cbn [rbind].
  split; reflexivity.
Qed.

(** C2, refuted as stated: with the strike K = -100 on the model of the test
    suite neither method raises; both return NaN. *)
Lemma negative_strike_not_rejected :
  european_call_price test_model (- 100) = Ok NaN /\
  european_put_price test_model (- 100) = Ok NaN /\
  ~ raises (european_call_price test_model (- 100)) /\
  ~ raises (european_put_price test_model (- 100)).
Proof.
  destruct (negative_strike_nan test_model (- 100)) as [Hc Hp]; [simpl; lra | lra |].
  rewrite Hc, Hp. repeat split; try reflexivity; intros [e He]; discriminate He.
Qed.

(** C2, amended: neither method checks K.  For K = 0 both raise
    ZeroDivisionError, from Python's division [S0/K]; for K < 0 (and S0 > 0)
    neither raises, and both return NaN. *)
Theorem nonpositive_strike_outcome (self : BlackScholesModel) (K : R) :
  K <= 0 ->
  (K = 0 /\
   european_call_price self K = Raise ZeroDivisionError /\
   european_put_price self K = Raise ZeroDivisionError)
  \/
  (K < 0 /\
   (0 < S0 self ->
    european_call_price self K = Ok NaN /\ european_put_price self K = Ok NaN)).
Proof.
  intros [HK | ->].
  - right. split; [exact HK|]. intro HS. apply negative_strike_nan; assumption.
  - left. split; [reflexivity | apply zero_strike_raises].
Qed.

Lemma nonpositive_strike_outcome_witness :
  (0 = 0 /\
   european_call_price test_model 0 = Raise ZeroDivisionError /\
   european_put_price test_model 0 = Raise ZeroDivisionError)
  \/
  (0 < 0 /\
   (0 < S0 test_model ->
    european_call_price test_model 0 = Ok NaN /\ european_put_price test_model 0 = Ok NaN)).
Proof. apply (nonpositive_strike_outcome test_model 0). lra. Defined.

(** * Properties of the path simulator *)

(** C7. Shape: with n_paths >= 1 and n_steps >= 1 the call returns an array
    of shape (n_paths, n_steps + 1), and its rows fill that shape. *)
Theorem simulation_shape (S0 r sigma T : R) (n_paths n_steps : Z) (g : rng) :
  (1 <= n_paths)%Z -> (1 <= n_steps)%Z ->
  exists paths g',
    monte_carlo_simulation S0 r sigma T n_paths n_steps g = Ok (paths, g') /\
    Z.of_nat (fst (shape paths)) = n_paths /\
    Z.of_nat (snd (shape paths)) = (n_steps + 1)%Z /\
    well_shaped paths.
Proof.
  intros Hp Hs. eexists. eexists.
  split; [apply monte_carlo_simulation_closed_form; lia|].
  cbn [ensemble shape fst snd].
  repeat split; try lia; apply ensemble_well_shaped.
Qed.

Lemma simulation_shape_witness :
  exists paths g',
    monte_carlo_simulation 100 0.05 0.2 1 1000 252 zero_rng = Ok (paths, g') /\
    Z.of_nat (fst (shape paths)) = 1000%Z /\
    Z.of_nat (snd (shape paths)) = (252 + 1)%Z /\
    well_shaped paths.
Proof. apply (simulation_shape 100 0.05 0.2 1 1000 252 zero_rng); lia. Defined.

(** C8. Initial column: with n_paths >= 1 and n_steps >= 1, entry (p, 0) of
    the result is S0 itself for every path p. *)
Theorem simulation_initial_column (S0 r sigma T : R) (n_paths n_steps : Z) (g : rng) :
  (1 <= n_paths)%Z -> (1 <= n_steps)%Z ->
  exists paths g',
    monte_carlo_simulation S0 r sigma T n_paths n_steps g = Ok (paths, g') /\
    forall p : nat, (Z.of_nat p < n_paths)%Z -> getitem paths p 0 = Some (Fin S0).
Proof.
  intros Hp Hs. eexists. eexists.
  split; [apply monte_carlo_simulation_closed_form; lia|].
  intros p Hlt. rewrite ensemble_getitem by lia. reflexivity.
Qed.

Lemma simulation_initial_column_witness :
  exists paths g',
    monte_carlo_simulation 100 0.05 0.2 1 2 3 zero_rng = Ok (paths, g') /\
    forall p : nat, (Z.of_nat p < 2)%Z -> getitem paths p 0 = Some (Fin 100).
Proof. apply (simulation_initial_column 100 0.05 0.2 1 2 3 zero_rng); lia. Defined.



(** C6, amended: in exact real arithmetic (no rounding, no overflow, no
    underflow), with S0 > 0, T > 0, n_paths >= 1 and n_steps >= 1 (r and
    sigma any reals) and any generator, every entry of the result is a real
    number greater than 0.  The floating-point result can break this:
    [simulation_underflow_zero], below, gives an entry 0.0. *)
Theorem simulation_positive (S0 r sigma T : R) (n_paths n_steps : Z) (g : rng) :
  0 < S0 -> 0 < T -> (1 <= n_paths)%Z -> (1 <= n_steps)%Z ->
  exists paths g',
    monte_carlo_simulation S0 r sigma T n_paths n_steps g = Ok (paths, g') /\
    (forall row e, In row (data paths) -> In e row -> exists x : R, e = Fin x /\ 0 < x) /\
    (forall p i : nat,
        (Z.of_nat p < n_paths)%Z -> (Z.of_nat i <= n_steps)%Z ->
        exists x : R, getitem paths p i = Some (Fin x) /\ 0 < x).
Proof.
  intros HS HT Hp Hs.
  assert (Hdt : 0 <= T / IZR n_steps).
  { left. apply Rdiv_lt_0_compat; [exact HT | apply IZR_lt; lia]. }
  eexists. eexists.
  split; [apply monte_carlo_simulation_closed_form; lia|].
  split.
  - intros row e Hrow He.
    destruct (ensemble_entries _ _ _ _ _ _ _ _ _ Hrow He) as [p [j [_ [_ ->]]]].
    rewrite path_entry_real by exact Hdt.
    eexists. split; [reflexivity | apply path_value_pos; exact HS].
  - intros p i Hlt Hi. rewrite ensemble_getitem by lia.
    rewrite path_entry_real by exact Hdt.
    eexists. split; [reflexivity | apply path_value_pos; exact HS].
Qed.

Lemma simulation_positive_witness :
  exists paths g',
    monte_carlo_simulation 100 0.05 0.2 1 2 3 zero_rng = Ok (paths, g') /\
    (forall row e, In row (data paths) -> In e row -> exists x : R, e = Fin x /\ 0 < x) /\
    (forall p i : nat,
        (Z.of_nat p < 2)%Z -> (Z.of_nat i <= 3)%Z ->
        exists x : R, getitem paths p i = Some (Fin x) /\ 0 < x).
Proof. apply (simulation_positive 100 0.05 0.2 1 2 3 zero_rng); [lra | lra | lia | lia]. Defined.

(** With sigma = 0 no entry depends on the generator. *)
Lemma ensemble_zero_volatility (S0 r dt : R) (g1 g2 : rng) (n m : nat) :
  0 <= dt -> ensemble S0 r 0 dt g1 n m = ensemble S0 r 0 dt g2 n m.
Proof.
  intro Hdt. unfold ensemble. f_equal.
  apply map_ext. intro p. apply map_ext. intro j.
  rewrite !path_entry_real by exact Hdt. rewrite !path_value_drift. reflexivity.
Qed.

(** C9. Zero volatility: with sigma = 0, T > 0, n_paths >= 1 and
    n_steps >= 1 the call succeeds, any two generators give the same
    array, and its entry at step i is S0 * exp (r * i * dt) with
    dt = T / n_steps, on every path. *)
Theorem zero_volatility_deterministic (S0 r T : R) (n_paths n_steps : Z) (g1 g2 : rng) :
  0 < T -> (1 <= n_paths)%Z -> (1 <= n_steps)%Z ->
  exists paths g1' g2',
    monte_carlo_simulation S0 r 0 T n_paths n_steps g1 = Ok (paths, g1') /\
    monte_carlo_simulation S0 r 0 T n_paths n_steps g2 = Ok (paths, g2') /\
    forall p i : nat,
      (Z.of_nat p < n_paths)%Z -> (Z.of_nat i <= n_steps)%Z ->
      getitem paths p i = Some (Fin (S0 * exp (r * INR i * (T / IZR n_steps)))).
Proof.
  intros HT Hp Hs.
  assert (Hdt : 0 <= T / IZR n_steps).
  { left. apply Rdiv_lt_0_compat; [exact HT | apply IZR_lt; lia]. }
  eexists. eexists. eexists.
  split; [apply monte_carlo_simulation_closed_form; lia|].
  split.
  - rewrite monte_carlo_simulation_closed_form by lia.
    rewrite (ensemble_zero_volatility S0 r _ g2 g1) by exact Hdt. reflexivity.
  - intros p i Hlt Hi. rewrite ensemble_getitem by lia.
    rewrite path_entry_real by exact Hdt. rewrite path_value_drift. reflexivity.
Qed.

Lemma zero_volatility_deterministic_witness :
  exists paths g1' g2',
    monte_carlo_simulation 100 0.05 0 1 2 3 zero_rng = Ok (paths, g1') /\
    monte_carlo_simulation 100 0.05 0 1 2 3 (mkrng (fun k => INR k) 7) = Ok (paths, g2') /\
    forall p i : nat,
      (Z.of_nat p < 2)%Z -> (Z.of_nat i <= 3)%Z ->
      getitem paths p i = Some (Fin (100 * exp (0.05 * INR i * (1 / IZR 3)))).
Proof.
  apply (zero_volatility_deterministic 100 0.05 1 2 3 zero_rng (mkrng (fun k => INR k) 7));
    [lra | lia | lia].
Defined.

(** With no paths the loop runs on empty columns. *)
Lemma simulation_no_paths_outcome (S0 r sigma T : R) (n_steps : Z) (g : rng) :
  (1 <= n_steps)%Z ->
  monte_carlo_simulation S0 r sigma T 0 n_steps g
  = Ok (mkndarray (0%nat, Z.to_nat (n_steps + 1)) [], g).
Proof.
  intro Hs. rewrite monte_carlo_simulation_closed_form by lia.
  unfold ensemble, advanced. cbn [Z.to_nat seq map].
  replace (S (Z.to_nat n_steps)) with (Z.to_nat (n_steps + 1)) by lia.
  destruct g as [d c]. cbn [draws consumed]. do 3 f_equal. lia.
Qed.

(** C10. No paths: with n_paths = 0 and n_steps >= 1 the call raises
    nothing and returns the empty array of shape (0, n_steps + 1). *)
Theorem simulation_no_paths (S0 r sigma T : R) (n_steps : Z) (g : rng) :
  (1 <= n_steps)%Z ->
  exists paths g',
    monte_carlo_simulation S0 r sigma T 0 n_steps g = Ok (paths, g') /\
    shape paths = (0%nat, Z.to_nat (n_steps + 1)) /\
    data paths = [] /\
    well_shaped paths.
Proof.
  intro Hs. eexists. eexists.
  split; [apply simulation_no_paths_outcome; exact Hs|].
  cbn [shape data]. repeat split. constructor.
Qed.

Lemma simulation_no_paths_witness :
  exists paths g',
    monte_carlo_simulation 100 0.05 0.2 1 0 252 zero_rng = Ok (paths, g') /\
    shape paths = (0%nat, Z.to_nat (252 + 1)) /\
    data paths = [] /\
    well_shaped paths.
Proof. apply (simulation_no_paths 100 0.05 0.2 1 252 zero_rng). lia. Defined.

(** ** Calls with a count below one *)

Lemma simulation_zero_steps (S0 r sigma T : R) (n_paths : Z) (g : rng) :
  monte_carlo_simulation S0 r sigma T n_paths 0 g = Raise ZeroDivisionError.
Proof.
  unfold monte_carlo_simulation, bind, lift. rewrite py_truediv_zero. reflexivity.
Qed.

Lemma simulation_negative_dimension (S0 r sigma T : R) (n_paths n_steps : Z) (g : rng) :
  n_steps <> 0%Z -> (n_paths < 0 \/ n_steps < -1)%Z ->
  monte_carlo_simulation S0 r sigma T n_paths n_steps g = Raise ValueError.
Proof.
  intros Hs Hneg. unfold monte_carlo_simulation, bind, lift.
  rewrite py_truediv_ok by (apply not_0_IZR; exact Hs).
  unfold np_zeros.
  replace ((n_paths <? 0) || (n_steps + 1 <? 0))%Z with true; [reflexivity|].
  symmetry. apply orb_true_iff.
  destruct Hneg; [left | right]; apply Z.ltb_lt; lia.
Qed.

Lemma simulation_zero_width (S0 r sigma T : R) (n_paths : Z) (g : rng) :
  (0 <= n_paths)%Z ->
  monte_carlo_simulation S0 r sigma T n_paths (-1) g = Raise IndexError.
Proof.
  intro Hp. unfold monte_carlo_simulation, bind, lift.
  rewrite py_truediv_ok by (apply not_0_IZR; lia).
  unfold np_zeros.
  replace ((n_paths <? 0) || (-1 + 1 <? 0))%Z with false.
  2:{ symmetry. apply orb_false_intro; apply Z.ltb_ge; lia. }
  reflexivity.
Qed.

(** C3, refuted as stated: a call with n_paths = 0 and one step is not
    rejected, it returns the empty array of shape (0, 2); and the call with
    n_paths = 0 and n_steps = 0 fails with ZeroDivisionError, raised by
    [T / n_steps], which is no invalid-argument error. *)
Lemma invalid_counts_not_rejected :
  monte_carlo_simulation 100 0.05 0.2 1 0 1 zero_rng
  = Ok (mkndarray (0%nat, 2%nat) [], zero_rng) /\
  monte_carlo_simulation 100 0.05 0.2 1 0 0 zero_rng = Raise ZeroDivisionError.
Proof.
  split.
  - rewrite monte_carlo_simulation_closed_form by lia. reflexivity.
  - apply simulation_zero_steps.
Qed.

(** C3, amended: the function checks neither count.  A call with
    n_steps < 1 always fails, with the error of the statement that trips:
    ZeroDivisionError for n_steps = 0, ValueError (negative dimension) for
    n_steps < -1 or n_paths < 0, IndexError for n_steps = -1 and
    n_paths >= 0.  With n_steps >= 1, a negative n_paths fails with
    ValueError and n_paths = 0 is accepted: the result is the empty array
    of shape (0, n_steps + 1). *)
Theorem invalid_counts_outcome (S0 r sigma T : R) (n_paths n_steps : Z) (g : rng) :
  (n_paths < 1 \/ n_steps < 1)%Z ->
  (n_steps = 0%Z /\
   monte_carlo_simulation S0 r sigma T n_paths n_steps g = Raise ZeroDivisionError)
  \/
  (n_steps <> 0%Z /\ (n_paths < 0 \/ n_steps < -1)%Z /\
   monte_carlo_simulation S0 r sigma T n_paths n_steps g = Raise ValueError)
  \/
  (n_steps = (-1)%Z /\ (0 <= n_paths)%Z /\
   monte_carlo_simulation S0 r sigma T n_paths n_steps g = Raise IndexError)
  \/
  ((1 <= n_steps)%Z /\ n_paths = 0%Z /\
   monte_carlo_simulation S0 r sigma T n_paths n_steps g
   = Ok (mkndarray (0%nat, Z.to_nat (n_steps + 1)) [], g)).
Proof.
  intro Hbad.
  destruct (Z.eq_dec n_steps 0) as [->|Hs0].
  { left. split; [reflexivity | apply simulation_zero_steps]. }
  right.
  destruct (Z_lt_dec n_paths 0) as [Hpn|Hpn].
  { left. split; [exact Hs0|]. split; [left; exact Hpn|].
    apply simulation_negative_dimension; [exact Hs0 | left; exact Hpn]. }
  destruct (Z_lt_dec n_steps (-1)) as [Hsn|Hsn].
  { left. split; [exact Hs0|]. split; [right; exact Hsn|].
    apply simulation_negative_dimension; [exact Hs0 | right; exact Hsn]. }
  right.
  destruct (Z.eq_dec n_steps (-1)) as [->|Hs1].
  { left. split; [reflexivity|]. split; [lia|]. apply simulation_zero_width. lia. }
  right. assert (n_paths = 0%Z) as -> by lia.
  split; [lia|]. split; [reflexivity|].
  apply simulation_no_paths_outcome. lia.
Qed.

Lemma invalid_counts_outcome_witness :
  (1%Z = 0%Z /\
   monte_carlo_simulation 100 0.05 0.2 1 0 1 zero_rng = Raise ZeroDivisionError)
  \/
  (1%Z <> 0%Z /\ (0 < 0 \/ 1 < -1)%Z /\
   monte_carlo_simulation 100 0.05 0.2 1 0 1 zero_rng = Raise ValueError)
  \/
  (1%Z = (-1)%Z /\ (0 <= 0)%Z /\
   monte_carlo_simulation 100 0.05 0.2 1 0 1 zero_rng = Raise IndexError)
  \/
  ((1 <= 1)%Z /\ 0%Z = 0%Z /\
   monte_carlo_simulation 100 0.05 0.2 1 0 1 zero_rng
   = Ok (mkndarray (0%nat, Z.to_nat (1 + 1)) [], zero_rng)).
Proof. apply (invalid_counts_outcome 100 0.05 0.2 1 0 1 zero_rng). left. lia. Defined.

(** * Further properties of the analytical pricer *)

(** ** Strict bounds *)

Lemma mills_bound_strict (x : R) : x < 0 -> - x * norm_cdf x < norm_pdf x.
Proof.
  intro Hx.
  set (h := fun t => norm_pdf t / (- t) - norm_cdf t).
  assert (Hprev : 0 <= h (x - 1)).
  { unfold h. pose proof (mills_bound (x - 1)) as Hm.
    assert (Hq : norm_cdf (x - 1) <= norm_pdf (x - 1) / (- (x - 1))).
    { apply Rmult_le_reg_l with (- (x - 1)); [lra|].
      replace (- (x - 1) * (norm_pdf (x - 1) / - (x - 1))) with (norm_pdf (x - 1))
        by (field; lra).
      apply Hm. lra. }
    lra. }
  assert (Hinc : h (x - 1) < h x).
  { apply (deriv_pos_incr h (fun t => norm_pdf t / Rsqr t) (x - 1) x).
    - intros c Hc. apply mills_deriv. lra.
    - lra.
    - intros c Hc. apply Rdiv_lt_0_compat; [apply norm_pdf_pos|].
      apply Rsqr_pos_lt. lra. }
  assert (Hpos : norm_cdf x < norm_pdf x / (- x)) by (unfold h in *; lra).
  apply Rmult_lt_compat_l with (r := - x) in Hpos; [|lra].
  replace (- x * (norm_pdf x / - x)) with (norm_pdf x) in Hpos by (field; lra).
  exact Hpos.
Qed.

Lemma hazard_pos (x : R) : 0 < norm_pdf x + x * norm_cdf x.
Proof.
  destruct (Rlt_dec x 0) as [Hx|Hx].
  - pose proof (mills_bound_strict x Hx). lra.
  - pose proof (norm_pdf_pos x). pose proof (norm_cdf_pos x).
    assert (0 <= x * norm_cdf x) by (apply Rmult_le_pos; lra). lra.
Qed.

Lemma cdf_over_gauss_strict (x y : R) :
  x < y -> norm_cdf x * exp (x * x / 2) < norm_cdf y * exp (y * y / 2).
Proof.
  intro Hxy.
  apply (deriv_pos_incr (fun t => norm_cdf t * exp (t * t / 2))
           (fun t => exp (t * t / 2) * (norm_pdf t + t * norm_cdf t)) x y).
  - intros; apply cdf_over_gauss_deriv.
  - exact Hxy.
  - intros c _. apply Rmult_lt_0_compat; [apply exp_pos | apply hazard_pos].
Qed.

Section StrictBounds.
Variables (S0 r sigma T K : R).
Hypothesis S0_pos : 0 < S0.
Hypothesis sigma_pos : 0 < sigma.
Hypothesis T_pos : 0 < T.
Hypothesis K_pos : 0 < K.

Lemma bs_d2_lt_d1 : bs_d2 S0 r sigma T K < bs_d1 S0 r sigma T K.
Proof. unfold bs_d2. pose proof (vol_sqrt_pos _ _ sigma_pos T_pos). lra. Qed.

Lemma bs_call_pos : 0 < bs_call S0 r sigma T K.
Proof.
  rewrite bs_call_factored by assumption.
  apply Rmult_lt_0_compat.
  - apply Rmult_lt_0_compat; [exact S0_pos | apply exp_pos].
  - pose proof (cdf_over_gauss_strict _ _ bs_d2_lt_d1). lra.
Qed.

Lemma bs_put_pos : 0 < bs_put S0 r sigma T K.
Proof.
  rewrite bs_put_factored by assumption.
  apply Rmult_lt_0_compat.
  - apply Rmult_lt_0_compat; [exact S0_pos | apply exp_pos].
  - assert (H : - bs_d1 S0 r sigma T K < - bs_d2 S0 r sigma T K)
      by (pose proof bs_d2_lt_d1; lra).
    pose proof (cdf_over_gauss_strict _ _ H). lra.
Qed.

Lemma bs_call_lt_spot : bs_call S0 r sigma T K < S0.
Proof.
  unfold bs_call.
  pose proof (norm_cdf_lt_1 (bs_d1 S0 r sigma T K)).
  pose proof (norm_cdf_pos (bs_d2 S0 r sigma T K)).
  pose proof (exp_pos (- r * T)).
  assert (0 < K * exp (- r * T) * norm_cdf (bs_d2 S0 r sigma T K))
    by (repeat apply Rmult_lt_0_compat; assumption).
  assert (S0 * norm_cdf (bs_d1 S0 r sigma T K) < S0 * 1)
    by (apply Rmult_lt_compat_l; assumption).
  lra.
Qed.

Lemma bs_put_lt_strike : bs_put S0 r sigma T K < K * exp (- r * T).
Proof.
  unfold bs_put.
  pose proof (norm_cdf_lt_1 (- bs_d2 S0 r sigma T K)).
  pose proof (norm_cdf_pos (- bs_d1 S0 r sigma T K)).
  pose proof (exp_pos (- r * T)).
  assert (0 < K * exp (- r * T)) by (apply Rmult_lt_0_compat; assumption).
  assert (0 < S0 * norm_cdf (- bs_d1 S0 r sigma T K))
    by (apply Rmult_lt_0_compat; assumption).
  assert (K * exp (- r * T) * norm_cdf (- bs_d2 S0 r sigma T K) < K * exp (- r * T) * 1)
    by (apply Rmult_lt_compat_l; assumption).
  lra.
Qed.

Lemma discount_le_1 : 0 <= r -> exp (- r * T) <= 1.
Proof.
  intro Hr. rewrite <- exp_0.
  assert (H : - r * T <= 0) by nra.
  destruct H as [H | ->]; [left; apply exp_increasing; exact H | right; reflexivity].
Qed.

End StrictBounds.

(** X1. In exact real arithmetic, on valid parameters and a strike K > 0
    both prices are strictly positive, as the first assertion of each
    pricing test asks.  (In floating point the distribution function
    reaches 0.0 and 1.0 in its tails, and a price far out of the money
    comes out as exactly 0.0.) *)
Theorem prices_positive (self : BlackScholesModel) (K : R) :
  0 < S0 self -> 0 < sigma self -> 0 < T self -> 0 < K ->
  exists call_price put_price : R,
    european_call_price self K = Ok (Fin call_price) /\
    european_put_price self K = Ok (Fin put_price) /\
    0 < call_price /\ 0 < put_price.
Proof.
  intros HS Hs HT HK.
  exists (bs_call (S0 self) (r self) (sigma self) (T self) K),
         (bs_put (S0 self) (r self) (sigma self) (T self) K).
  split; [apply european_call_price_valid; assumption|].
  split; [apply european_put_price_valid; assumption|].
  split; [apply bs_call_pos | apply bs_put_pos]; assumption.
Qed.

Lemma prices_positive_witness :
  exists call_price put_price : R,
    european_call_price test_model 100 = Ok (Fin call_price) /\
    european_put_price test_model 100 = Ok (Fin put_price) /\
    0 < call_price /\ 0 < put_price.
Proof. apply (prices_positive test_model 100); simpl; lra. Defined.

(** X2. In exact real arithmetic the call price lies strictly between the
    value of the forward, S0 - K * exp (- r * T), and the spot S0; with
    r >= 0 it exceeds the intrinsic value max (S0 - K, 0), the second
    assertion of the call test.  (In floating point the bounds can be
    attained, the distribution function being 1.0 in its upper tail.) *)
Theorem call_price_bounds (self : BlackScholesModel) (K : R) :
  0 < S0 self -> 0 < sigma self -> 0 < T self -> 0 < K ->
  exists call_price : R,
    european_call_price self K = Ok (Fin call_price) /\
    S0 self - K * exp (- r self * T self) < call_price < S0 self /\
    (0 <= r self -> Rmax (S0 self - K) 0 < call_price).
Proof.
  intros HS Hs HT HK.
  exists (bs_call (S0 self) (r self) (sigma self) (T self) K).
  split; [apply european_call_price_valid; assumption|].
  pose proof (bs_parity (S0 self) (r self) (sigma self) (T self) K) as Hpar.
  pose proof (bs_put_pos _ (r self) _ _ _ HS Hs HT HK) as Hput.
  pose proof (bs_call_pos _ (r self) _ _ _ HS Hs HT HK) as Hcall.
  pose proof (bs_call_lt_spot (S0 self) (r self) (sigma self) (T self) K HS HK) as Hup.
  split; [split; lra|].
  intro Hr. pose proof (discount_le_1 (r self) (T self) HT Hr) as Hd.
  assert (K * exp (- r self * T self) <= K * 1) by (apply Rmult_le_compat_l; lra).
  apply Rmax_lub_lt; lra.
Qed.

Lemma call_price_bounds_witness :
  exists call_price : R,
    european_call_price test_model 100 = Ok (Fin call_price) /\
    S0 test_model - 100 * exp (- r test_model * T test_model) < call_price < S0 test_model /\
    (0 <= r test_model -> Rmax (S0 test_model - 100) 0 < call_price).
Proof. apply (call_price_bounds test_model 100); simpl; lra. Defined.

(** X3. In exact real arithmetic the put price lies strictly between
    K * exp (- r * T) - S0 and the discounted strike K * exp (- r * T); with
    r >= 0 it is below the strike K, the second assertion of the put test.
    (In floating point the bounds can be attained, the distribution
    function being 1.0 in its upper tail.) *)
Theorem put_price_bounds (self : BlackScholesModel) (K : R) :
  0 < S0 self -> 0 < sigma self -> 0 < T self -> 0 < K ->
  exists put_price : R,
    european_put_price self K = Ok (Fin put_price) /\
    K * exp (- r self * T self) - S0 self < put_price < K * exp (- r self * T self) /\
    (0 <= r self -> put_price < K).
Proof.
  intros HS Hs HT HK.
  exists (bs_put (S0 self) (r self) (sigma self) (T self) K).
  split; [apply european_put_price_valid; assumption|].
  pose proof (bs_parity (S0 self) (r self) (sigma self) (T self) K) as Hpar.
  pose proof (bs_call_pos _ (r self) _ _ _ HS Hs HT HK) as Hcall.
  pose proof (bs_put_lt_strike (S0 self) (r self) (sigma self) (T self) K HS HK) as Hup.
  split; [split; lra|].
  intro Hr. pose proof (discount_le_1 (r self) (T self) HT Hr) as Hd.
  assert (K * exp (- r self * T self) <= K * 1) by (apply Rmult_le_compat_l; lra).
  lra.
Qed.

Lemma put_price_bounds_witness :
  exists put_price : R,
    european_put_price test_model 100 = Ok (Fin put_price) /\
    100 * exp (- r test_model * T test_model) - S0 test_model < put_price
      < 100 * exp (- r test_model * T test_model) /\
    (0 <= r test_model -> put_price < 100).
Proof. apply (put_price_bounds test_model 100); simpl; lra. Defined.

(** ** Degenerate parameters *)

Lemma fdiv_nan_r (a : float64) : fdiv a NaN = NaN.
Proof. destruct a; reflexivity. Qed.

Lemma fmul_nan_r (a : float64) : fmul a NaN = NaN.
Proof. destruct a; reflexivity. Qed.

Lemma fadd_nan_r (a : float64) : fadd a NaN = NaN.
Proof. destruct a; reflexivity. Qed.

Lemma np_sqrt_neg (x : R) : x < 0 -> np_sqrt x = NaN.
Proof. intro Hx. unfold np_sqrt. destruct (Rlt_dec x 0); [reflexivity | contradiction]. Qed.

Lemma inf_scaled_pos (x : R) : 0 < x -> inf_scaled x = PInf.
Proof. intro Hx. unfold inf_scaled. destruct (Rlt_dec 0 x); [reflexivity | contradiction]. Qed.

Lemma inf_scaled_neg (x : R) : x < 0 -> inf_scaled x = NInf.
Proof.
  intro Hx. unfold inf_scaled.
  destruct (Rlt_dec 0 x); [lra|]. destruct (Rlt_dec x 0); [reflexivity | contradiction].
Qed.

Lemma inf_scaled_zero : inf_scaled 0 = NaN.
Proof.
  unfold inf_scaled.
  destruct (Rlt_dec 0 0); [lra|]. destruct (Rlt_dec 0 0); [lra | reflexivity].
Qed.

(** With sigma * sqrt T = 0 the quotient [d1] is an infinity of the sign of
    its numerator, or NaN when the numerator is zero. *)
Lemma d1_of_degenerate (self : BlackScholesModel) (K : R) :
  0 < S0 self -> 0 < K -> 0 <= T self -> (sigma self = 0 \/ T self = 0) ->
  d1_of self K = Ok (inf_scaled (ln (S0 self / K) + r self * T self)) /\
  d2_of self (inf_scaled (ln (S0 self / K) + r self * T self))
  = inf_scaled (ln (S0 self / K) + r self * T self).
Proof.
  intros HS HK HT Hz.
  assert (Hv : sigma self * sqrt (T self) = 0).
  { destruct Hz as [-> | ->]; [ring | rewrite sqrt_0; ring]. }
  assert (Hn : (r self + 0.5 * sigma self ^ 2) * T self = r self * T self).
  { destruct Hz as [-> | ->]; simpl; ring. }
  split.
  - unfold d1_of. rewrite py_truediv_ok by lra. cbn [rbind].
    rewrite np_log_pos by (apply Rdiv_lt_0_compat; assumption).
    rewrite np_sqrt_nonneg by exact HT. cbn [fadd fmul]. rewrite Hv, Hn.
    cbn [fdiv]. destruct (Req_dec_T 0 0) as [_|Hne]; [reflexivity | contradiction Hne; reflexivity].
  - unfold d2_of. rewrite np_sqrt_nonneg by exact HT. cbn [fmul]. rewrite Hv.
    unfold inf_scaled.
    destruct (Rlt_dec 0 (ln (S0 self / K) + r self * T self)); [reflexivity|].
    destruct (Rlt_dec (ln (S0 self / K) + r self * T self) 0); reflexivity.
Qed.

Lemma forward_sign (S0 r T K : R) :
  0 < S0 -> 0 < K ->
  (K * exp (- r * T) < S0 -> 0 < ln (S0 / K) + r * T) /\
  (S0 < K * exp (- r * T) -> ln (S0 / K) + r * T < 0) /\
  (S0 = K * exp (- r * T) -> ln (S0 / K) + r * T = 0).
Proof.
  intros HS HK.
  assert (Hq : 0 < S0 / K) by (apply Rdiv_lt_0_compat; assumption).
  assert (He : ln (exp (- r * T)) = - r * T) by apply ln_exp.
  pose proof (exp_pos (- r * T)) as Hpos.
  repeat split; intro H.
  - assert (exp (- r * T) < S0 / K).
    { apply Rmult_lt_reg_r with K; [exact HK|].
      unfold Rdiv. rewrite Rmult_assoc, Rinv_l by lra. lra. }
    pose proof (ln_increasing _ _ Hpos H0). lra.
  - assert (S0 / K < exp (- r * T)).
    { apply Rmult_lt_reg_r with K; [exact HK|].
      unfold Rdiv. rewrite Rmult_assoc, Rinv_l by lra. lra. }
    pose proof (ln_increasing _ _ Hq H0). lra.
  - assert (S0 / K = exp (- r * T)) by (rewrite H; field; lra).
    rewrite H0, He. ring.
Qed.

(** X4. Zero volatility or zero maturity: with sigma = 0 or T = 0 (and
    S0 > 0, K > 0, sigma >= 0, T >= 0) the division by sigma * sqrt T
    raises nothing.  The call returns S0 - K * exp (- r * T) and the put 0
    when the spot is above the discounted strike, the call 0 and the put
    K * exp (- r * T) - S0 when it is below, and both return NaN when the
    two are equal. *)
Theorem degenerate_volatility_price (self : BlackScholesModel) (K : R) :
  0 < S0 self -> 0 < K -> 0 <= sigma self -> 0 <= T self ->
  (sigma self = 0 \/ T self = 0) ->
  (K * exp (- r self * T self) < S0 self ->
   european_call_price self K = Ok (Fin (S0 self - K * exp (- r self * T self))) /\
   european_put_price self K = Ok (Fin 0)) /\
  (S0 self < K * exp (- r self * T self) ->
   european_call_price self K = Ok (Fin 0) /\
   european_put_price self K = Ok (Fin (K * exp (- r self * T self) - S0 self))) /\
  (S0 self = K * exp (- r self * T self) ->
   european_call_price self K = Ok NaN /\ european_put_price self K = Ok NaN).
Proof.
  intros HS HK Hs HT Hz.
  destruct (d1_of_degenerate self K HS HK HT Hz) as [Hd1 Hd2].
  destruct (forward_sign (S0 self) (r self) (T self) K HS HK) as [Habove [Hbelow Hat]].
  unfold european_call_price, european_put_price. rewrite Hd1. cbn [rbind].
  rewrite Hd2. split; [|split]; intro H; split.
  - rewrite inf_scaled_pos by (apply Habove; exact H). cbn. do 2 f_equal. ring.
  - rewrite inf_scaled_pos by (apply Habove; exact H). cbn. do 2 f_equal. ring.
  - rewrite inf_scaled_neg by (apply Hbelow; exact H). cbn. do 2 f_equal. ring.
  - rewrite inf_scaled_neg by (apply Hbelow; exact H). cbn. do 2 f_equal. ring.
  - rewrite (Hat H), inf_scaled_zero. reflexivity.
  - rewrite (Hat H), inf_scaled_zero. reflexivity.
Qed.

Lemma degenerate_volatility_price_witness :
  (100 * exp (- r (mkBlackScholesModel 100 0.05 0 1) * 1) < 100 ->
   european_call_price (mkBlackScholesModel 100 0.05 0 1) 100
   = Ok (Fin (100 - 100 * exp (- r (mkBlackScholesModel 100 0.05 0 1) * 1))) /\
   european_put_price (mkBlackScholesModel 100 0.05 0 1) 100 = Ok (Fin 0)) /\
  (100 < 100 * exp (- r (mkBlackScholesModel 100 0.05 0 1) * 1) ->
   european_call_price (mkBlackScholesModel 100 0.05 0 1) 100 = Ok (Fin 0) /\
   european_put_price (mkBlackScholesModel 100 0.05 0 1) 100
   = Ok (Fin (100 * exp (- r (mkBlackScholesModel 100 0.05 0 1) * 1) - 100))) /\
  (100 = 100 * exp (- r (mkBlackScholesModel 100 0.05 0 1) * 1) ->
   european_call_price (mkBlackScholesModel 100 0.05 0 1) 100 = Ok NaN /\
   european_put_price (mkBlackScholesModel 100 0.05 0 1) 100 = Ok NaN).
Proof.
  apply (degenerate_volatility_price (mkBlackScholesModel 100 0.05 0 1) 100);
    simpl; lra.
Defined.

(** X5. Negative maturity: with T < 0 and K <> 0 nothing is raised; the
    square root of T is NaN and both methods return NaN, whatever the other
    parameters. *)
Theorem negative_maturity_nan (self : BlackScholesModel) (K : R) :
  T self < 0 -> K <> 0 ->
  european_call_price self K = Ok NaN /\ european_put_price self K = Ok NaN.
Proof.
  intros HT HK.
  assert (Hd1 : d1_of self K = Ok NaN).
  { unfold d1_of. rewrite py_truediv_ok by exact HK. cbn [rbind].
    rewrite np_sqrt_neg by exact HT. cbn [fmul]. rewrite fdiv_nan_r. reflexivity. }
  unfold european_call_price, european_put_price. rewrite Hd1. cbn [rbind].
  split; reflexivity.
Qed.

Lemma negative_maturity_nan_witness :
  european_call_price (mkBlackScholesModel 100 0.05 0.2 (- 1)) 100 = Ok NaN /\
  european_put_price (mkBlackScholesModel 100 0.05 0.2 (- 1)) 100 = Ok NaN.
Proof. apply (negative_maturity_nan (mkBlackScholesModel 100 0.05 0.2 (- 1)) 100); simpl; lra. Defined.

(** ** Change of unit *)

Lemma bs_d1_scaled (c S0 r sigma T K : R) :
  0 < c -> 0 < K -> bs_d1 (c * S0) r sigma T (c * K) = bs_d1 S0 r sigma T K.
Proof.
  intros Hc HK. unfold bs_d1.
  replace (c * S0 / (c * K)) with (S0 / K) by (field; lra). reflexivity.
Qed.

(** X6. Change of unit: both prices depend on S0 and K through the ratio
    S0 / K and one factor. Multiplying the spot and the strike by c > 0
    multiplies the call and the put price by c. *)
Theorem prices_homogeneous (c S0 r sigma T K : R) :
  0 < c -> 0 < S0 -> 0 < sigma -> 0 < T -> 0 < K ->
  exists call_price put_price : R,
    european_call_price (mkBlackScholesModel S0 r sigma T) K = Ok (Fin call_price) /\
    european_put_price (mkBlackScholesModel S0 r sigma T) K = Ok (Fin put_price) /\
    european_call_price (mkBlackScholesModel (c * S0) r sigma T) (c * K)
    = Ok (Fin (c * call_price)) /\
    european_put_price (mkBlackScholesModel (c * S0) r sigma T) (c * K)
    = Ok (Fin (c * put_price)).
Proof.
  intros Hc HS Hs HT HK.
  assert (HcS : 0 < c * S0) by (apply Rmult_lt_0_compat; assumption).
  assert (HcK : 0 < c * K) by (apply Rmult_lt_0_compat; assumption).
  exists (bs_call S0 r sigma T K), (bs_put S0 r sigma T K).
  split; [apply (european_call_price_valid (mkBlackScholesModel S0 r sigma T)); assumption|].
  split; [apply (european_put_price_valid (mkBlackScholesModel S0 r sigma T)); assumption|].
  split.
  - rewrite (european_call_price_valid (mkBlackScholesModel (c * S0) r sigma T)) by assumption.
    do 2 f_equal. cbn. unfold bs_call, bs_d2. rewrite bs_d1_scaled by assumption. ring.
  - rewrite (european_put_price_valid (mkBlackScholesModel (c * S0) r sigma T)) by assumption.
    do 2 f_equal. cbn. unfold bs_put, bs_d2. rewrite bs_d1_scaled by assumption. ring.
Qed.

Lemma prices_homogeneous_witness :
  exists call_price put_price : R,
    european_call_price (mkBlackScholesModel 100 0.05 0.2 1) 100 = Ok (Fin call_price) /\
    european_put_price (mkBlackScholesModel 100 0.05 0.2 1) 100 = Ok (Fin put_price) /\
    european_call_price (mkBlackScholesModel (2 * 100) 0.05 0.2 1) (2 * 100)
    = Ok (Fin (2 * call_price)) /\
    european_put_price (mkBlackScholesModel (2 * 100) 0.05 0.2 1) (2 * 100)
    = Ok (Fin (2 * put_price)).
Proof. apply (prices_homogeneous 2 100 0.05 0.2 1 100); lra. Defined.

(** * Further properties of the path simulator *)

(** ** The price as a function of the draws *)

(** The sum of the draws used on path [p] up to step [j]. *)
Fixpoint draw_sum (g : rng) (n p j : nat) : R :=
  match j with
  | O => 0
  | S j' => draw_sum g n p j' + draws g (draw_index g n p (S j'))
  end.

Lemma path_value_lognormal (S0 r sigma dt : R) (g : rng) (n p j : nat) :
  path_value S0 r sigma dt g n p j
  = S0 * exp ((r - 0.5 * sigma ^ 2) * (INR j * dt) + sigma * sqrt dt * draw_sum g n p j).
Proof.
  induction j as [|j IH].
  - cbn [path_value draw_sum INR]. rewrite Rmult_0_l, !Rmult_0_r, Rplus_0_r, exp_0. ring.
  - cbn [path_value draw_sum]. rewrite IH. unfold step_factor. rewrite S_INR.
    rewrite Rmult_assoc, <- exp_plus. do 2 f_equal. ring.
Qed.

Lemma time_step_nonneg (T : R) (n_steps : Z) :
  0 <= T -> (1 <= n_steps)%Z -> 0 <= T / IZR n_steps.
Proof.
  intros HT Hs. apply Rmult_le_pos; [exact HT|].
  left. apply Rinv_0_lt_compat. apply IZR_lt. lia.
Qed.

Lemma simulation_lognormal_form_aux (S0 r sigma T : R) (n_paths n_steps : Z) (g : rng) :
  0 <= T -> (1 <= n_paths)%Z -> (1 <= n_steps)%Z ->
  exists paths g',
    monte_carlo_simulation S0 r sigma T n_paths n_steps g = Ok (paths, g') /\
    forall p i : nat,
      (Z.of_nat p < n_paths)%Z -> (Z.of_nat i <= n_steps)%Z ->
      getitem paths p i =
      Some (Fin (S0 * exp ((r - 0.5 * sigma ^ 2) * (INR i * (T / IZR n_steps))
                           + sigma * sqrt (T / IZR n_steps)
                             * draw_sum g (Z.to_nat n_paths) p i))).
Proof.
  intros HT Hp Hs. pose proof (time_step_nonneg T n_steps HT Hs) as Hdt.
  eexists. eexists.
  split; [apply monte_carlo_simulation_closed_form; lia|].
  intros p i Hlt Hi. rewrite ensemble_getitem by lia.
  rewrite path_entry_real by exact Hdt. rewrite path_value_lognormal. reflexivity.
Qed.

(** X7. Closed form: with T >= 0, n_paths >= 1 and n_steps >= 1 the entry
    of path p at step i is S0 * exp ((r - sigma^2/2) * i * dt
    + sigma * sqrt dt * (z_1 + ... + z_i)), with dt = T / n_steps and
    z_1, ..., z_i the draws used on that path up to step i. *)
Theorem simulation_lognormal_form (S0 r sigma T : R) (n_paths n_steps : Z) (g : rng) :
  0 <= T -> (1 <= n_paths)%Z -> (1 <= n_steps)%Z ->
  exists paths g',
    monte_carlo_simulation S0 r sigma T n_paths n_steps g = Ok (paths, g') /\
    forall p i : nat,
      (Z.of_nat p < n_paths)%Z -> (Z.of_nat i <= n_steps)%Z ->
      getitem paths p i =
      Some (Fin (S0 * exp ((r - 0.5 * sigma ^ 2) * (INR i * (T / IZR n_steps))
                           + sigma * sqrt (T / IZR n_steps)
                             * draw_sum g (Z.to_nat n_paths) p i))).
Proof.
  intros HT Hp Hs.
  destruct (simulation_lognormal_form_aux S0 r sigma T n_paths n_steps g HT Hp Hs)
    as [paths [g' [Hrun Hentry]]].
  exists paths, g'. split; [exact Hrun | exact Hentry].
Qed.

Lemma simulation_lognormal_form_witness :
  exists paths g',
    monte_carlo_simulation 100 0.05 0.2 1 2 3 zero_rng = Ok (paths, g') /\
    forall p i : nat,
      (Z.of_nat p < 2)%Z -> (Z.of_nat i <= 3)%Z ->
      getitem paths p i =
      Some (Fin (100 * exp ((0.05 - 0.5 * 0.2 ^ 2) * (INR i * (1 / IZR 3))
                            + 0.2 * sqrt (1 / IZR 3)
                              * draw_sum zero_rng (Z.to_nat 2) p i))).
Proof. apply (simulation_lognormal_form 100 0.05 0.2 1 2 3 zero_rng); [lra | lia | lia]. Defined.

(** ** Use of the generator *)

(** X8. Consumption: a call with n_paths >= 0 and n_steps >= 1 leaves the
    generator advanced by exactly n_paths * n_steps draws, and changes
    nothing else of it. *)
Theorem simulation_consumes (S0 r sigma T : R) (n_paths n_steps : Z) (g : rng) :
  (0 <= n_paths)%Z -> (1 <= n_steps)%Z ->
  exists paths,
    monte_carlo_simulation S0 r sigma T n_paths n_steps g
    = Ok (paths, mkrng (draws g) (consumed g + Z.to_nat (n_paths * n_steps))).
Proof.
  intros Hp Hs. eexists.
  rewrite monte_carlo_simulation_closed_form by lia.
  unfold advanced. do 3 f_equal.
  rewrite Z2Nat.inj_mul by lia. lia.
Qed.

Lemma simulation_consumes_witness :
  exists paths,
    monte_carlo_simulation 100 0.05 0.2 1 1000 252 zero_rng
    = Ok (paths, mkrng (draws zero_rng) (consumed zero_rng + Z.to_nat (1000 * 252))).
Proof. apply (simulation_consumes 100 0.05 0.2 1 1000 252 zero_rng); lia. Defined.

Lemma path_entry_own_draws (S0 r sigma dt : R) (g1 g2 : rng) (n p m : nat) :
  (forall i, (1 <= i <= m)%nat ->
     draws g1 (draw_index g1 n p i) = draws g2 (draw_index g2 n p i)) ->
  forall j, (j <= m)%nat ->
    path_entry S0 r sigma dt g1 n p j = path_entry S0 r sigma dt g2 n p j.
Proof.
  intros Hsame j. induction j as [|j IH]; intro Hj; [reflexivity|].
  cbn [path_entry]. rewrite IH by lia. f_equal.
  unfold growth_factor. pose proof (Hsame (S j) ltac:(lia)) as Hd.
  unfold draw_index in Hd. replace (S j - 1)%nat with j in Hd by lia.
  rewrite Hd. reflexivity.
Qed.

(** X9. Separation of the paths: row p of the result depends on the draws
    of path p only.  Two generators that agree on the draws used for
    (p, 1), ..., (p, n_steps) give the same row p, whatever their other
    draws are. *)
Theorem simulation_path_separation
  (S0 r sigma T : R) (n_paths n_steps : Z) (g1 g2 : rng) (p : nat) :
  (1 <= n_steps)%Z -> (Z.of_nat p < n_paths)%Z ->
  (forall i : nat, (1 <= Z.of_nat i <= n_steps)%Z ->
     draws g1 (draw_index g1 (Z.to_nat n_paths) p i)
     = draws g2 (draw_index g2 (Z.to_nat n_paths) p i)) ->
  exists paths1 g1' paths2 g2' row,
    monte_carlo_simulation S0 r sigma T n_paths n_steps g1 = Ok (paths1, g1') /\
    monte_carlo_simulation S0 r sigma T n_paths n_steps g2 = Ok (paths2, g2') /\
    nth_error (data paths1) p = Some row /\
    nth_error (data paths2) p = Some row.
Proof.
  intros Hs Hp Hsame. do 5 eexists.
  split; [apply monte_carlo_simulation_closed_form; lia|].
  split; [apply monte_carlo_simulation_closed_form; lia|].
  unfold ensemble. cbn [data].
  rewrite !nth_error_map_seq by lia. cbn [Nat.add].
  split; [reflexivity|]. f_equal.
  apply map_ext_in. intros j Hj. apply in_seq in Hj.
  symmetry. apply (path_entry_own_draws _ _ _ _ g1 g2 _ p (Z.to_nat n_steps)); [|lia].
  intros i Hi. apply Hsame. lia.
Qed.

Lemma simulation_path_separation_witness :
  exists paths1 g1' paths2 g2' row,
    monte_carlo_simulation 100 0.05 0.2 1 2 3 zero_rng = Ok (paths1, g1') /\
    monte_carlo_simulation 100 0.05 0.2 1 2 3
      (mkrng (fun k => if Nat.even k then 0 else 1) 0) = Ok (paths2, g2') /\
    nth_error (data paths1) 0 = Some row /\
    nth_error (data paths2) 0 = Some row.
Proof.
  apply (simulation_path_separation 100 0.05 0.2 1 2 3 zero_rng
           (mkrng (fun k => if Nat.even k then 0 else 1) 0) 0); [lia | lia |].
  intros i Hi. unfold draw_index. change (Z.to_nat 2) with 2%nat.
  cbn [draws consumed zero_rng Nat.add].
  replace ((i - 1) * 2 + 0)%nat with (2 * (i - 1))%nat by lia.
  rewrite Nat.even_mul. reflexivity.
Defined.

(** ** Scale and degenerate horizons *)

Lemma path_value_scale (S0 r sigma dt : R) (g : rng) (n p j : nat) :
  path_value S0 r sigma dt g n p j = S0 * path_value 1 r sigma dt g n p j.
Proof. rewrite !path_value_lognormal. ring. Qed.

(** X10. Scale: with T >= 0 the ensemble is proportional to S0.  Each
    entry for the initial price S0 is S0 times the entry of the run with
    initial price 1 on the same generator. *)
Theorem simulation_scales_with_S0 (S0 r sigma T : R) (n_paths n_steps : Z) (g : rng) :
  0 <= T -> (1 <= n_paths)%Z -> (1 <= n_steps)%Z ->
  exists paths unit_paths g',
    monte_carlo_simulation S0 r sigma T n_paths n_steps g = Ok (paths, g') /\
    monte_carlo_simulation 1 r sigma T n_paths n_steps g = Ok (unit_paths, g') /\
    forall p i : nat,
      (Z.of_nat p < n_paths)%Z -> (Z.of_nat i <= n_steps)%Z ->
      exists x : R,
        getitem unit_paths p i = Some (Fin x) /\
        getitem paths p i = Some (Fin (S0 * x)).
Proof.
  intros HT Hp Hs. pose proof (time_step_nonneg T n_steps HT Hs) as Hdt.
  do 3 eexists.
  split; [apply monte_carlo_simulation_closed_form; lia|].
  split; [apply monte_carlo_simulation_closed_form; lia|].
  intros p i Hlt Hi. eexists.
  rewrite !ensemble_getitem by lia. rewrite !path_entry_real by exact Hdt.
  split; [reflexivity|]. rewrite path_value_scale. reflexivity.
Qed.

Lemma simulation_scales_with_S0_witness :
  exists paths unit_paths g',
    monte_carlo_simulation 100 0.05 0.2 1 2 3 zero_rng = Ok (paths, g') /\
    monte_carlo_simulation 1 0.05 0.2 1 2 3 zero_rng = Ok (unit_paths, g') /\
    forall p i : nat,
      (Z.of_nat p < 2)%Z -> (Z.of_nat i <= 3)%Z ->
      exists x : R,
        getitem unit_paths p i = Some (Fin x) /\
        getitem paths p i = Some (Fin (100 * x)).
Proof. apply (simulation_scales_with_S0 100 0.05 0.2 1 2 3 zero_rng); [lra | lia | lia]. Defined.

(** X11. Zero horizon: with T = 0 (n_paths >= 1, n_steps >= 1) nothing is
    raised and every entry of the result is S0, whatever the draws. *)
Theorem simulation_zero_horizon (S0 r sigma : R) (n_paths n_steps : Z) (g : rng) :
  (1 <= n_paths)%Z -> (1 <= n_steps)%Z ->
  exists paths g',
    monte_carlo_simulation S0 r sigma 0 n_paths n_steps g = Ok (paths, g') /\
    forall p i : nat,
      (Z.of_nat p < n_paths)%Z -> (Z.of_nat i <= n_steps)%Z ->
      getitem paths p i = Some (Fin S0).
Proof.
  intros Hp Hs.
  destruct (simulation_lognormal_form_aux S0 r sigma 0 n_paths n_steps g (Rle_refl 0) Hp Hs)
    as [paths [g' [Hrun Hentry]]].
  exists paths, g'. split; [exact Hrun|].
  intros p i Hlt Hi. rewrite (Hentry p i Hlt Hi). do 2 f_equal.
  unfold Rdiv. rewrite Rmult_0_l, sqrt_0, !Rmult_0_r, Rmult_0_l, Rplus_0_r, exp_0. ring.
Qed.

Lemma simulation_zero_horizon_witness :
  exists paths g',
    monte_carlo_simulation 100 0.05 0.2 0 2 3 zero_rng = Ok (paths, g') /\
    forall p i : nat,
      (Z.of_nat p < 2)%Z -> (Z.of_nat i <= 3)%Z ->
      getitem paths p i = Some (Fin 100).
Proof. apply (simulation_zero_horizon 100 0.05 0.2 2 3 zero_rng); lia. Defined.

Lemma path_entry_nan (S0 r sigma dt : R) (g : rng) (n p j : nat) :
  dt < 0 -> path_entry S0 r sigma dt g n p (S j) = NaN.
Proof.
  intro Hdt. cbn [path_entry]. unfold growth_factor.
  rewrite np_sqrt_neg by exact Hdt. cbn [fmul fadd np_exp]. apply fmul_nan_r.
Qed.

(** X12. Negative horizon: with T < 0 (n_paths >= 1, n_steps >= 1) nothing
    is raised; column 0 holds S0 and every later entry is NaN, from the
    square root of the negative time step. *)
Theorem simulation_negative_horizon (S0 r sigma T : R) (n_paths n_steps : Z) (g : rng) :
  T < 0 -> (1 <= n_paths)%Z -> (1 <= n_steps)%Z ->
  exists paths g',
    monte_carlo_simulation S0 r sigma T n_paths n_steps g = Ok (paths, g') /\
    forall p i : nat,
      (Z.of_nat p < n_paths)%Z -> (Z.of_nat i <= n_steps)%Z ->
      getitem paths p i = Some (if Nat.eqb i 0 then Fin S0 else NaN).
Proof.
  intros HT Hp Hs.
  assert (Hdt : T / IZR n_steps < 0).
  { unfold Rdiv. assert (0 < / IZR n_steps) by (apply Rinv_0_lt_compat, IZR_lt; lia). nra. }
  eexists. eexists.
  split; [apply monte_carlo_simulation_closed_form; lia|].
  intros p i Hlt Hi. rewrite ensemble_getitem by lia.
  destruct i as [|i]; [reflexivity|].
  rewrite path_entry_nan by exact Hdt. reflexivity.
Qed.

Lemma simulation_negative_horizon_witness :
  exists paths g',
    monte_carlo_simulation 100 0.05 0.2 (- 1) 2 3 zero_rng = Ok (paths, g') /\
    forall p i : nat,
      (Z.of_nat p < 2)%Z -> (Z.of_nat i <= 3)%Z ->
      getitem paths p i = Some (if Nat.eqb i 0 then Fin 100 else NaN).
Proof. apply (simulation_negative_horizon 100 0.05 0.2 (- 1) 2 3 zero_rng); [lra | lia | lia]. Defined.

(** * The test suite (tests/test_options.py) *)

(** What a test can end with other than success: a failed [assert], or an
    exception of the code under test that nothing catches. *)
Inductive test_failure : Type :=
| AssertionError
| Uncaught (e : exn).

Inductive outcome : Type :=
| Passed
| Failed (f : test_failure).

(** [assert b], followed by the rest of the test. *)
Definition py_assert (b : bool) (rest : outcome) : outcome :=
  if b then rest else Failed AssertionError.

(** Comparisons of numpy scalars; any comparison with NaN is false. *)
Definition fgt (a b : float64) : bool :=
  match a, b with
  | NaN, _ | _, NaN => false
  | Fin x, Fin y => if Rlt_dec y x then true else false
  | PInf, PInf | NInf, NInf => false
  | PInf, _ | _, NInf => true
  | _, PInf | NInf, _ => false
  end.

Definition flt (a b : float64) : bool := fgt b a.

Definition feq (a b : float64) : bool :=
  match a, b with
  | Fin x, Fin y => if Req_dec_T x y then true else false
  | PInf, PInf | NInf, NInf => true
  | _, _ => false
  end.

Definition fabs (a : float64) : float64 :=
  match a with
  | Fin x => Fin (Rabs x)
  | PInf | NInf => PInf
  | NaN => NaN
  end.

(** The default arguments of [monte_carlo_simulation]. *)
Definition default_n_paths : Z := 10000.
Definition default_n_steps : Z := 252.

(** ** class TestBlackScholesModel; [setup_method] builds [test_model] *)

Definition test_call_option_price : outcome :=
  match european_call_price test_model 100 with
  | Raise e => Failed (Uncaught e)
  | Ok call_price =>
      py_assert (fgt call_price (Fin 0))
        (py_assert (fgt call_price (Fin (Rmax (S0 test_model - 100) 0)))
           Passed)
  end.

Definition test_put_option_price : outcome :=
  match european_put_price test_model 100 with
  | Raise e => Failed (Uncaught e)
  | Ok put_price =>
      py_assert (fgt put_price (Fin 0))
        (py_assert (flt put_price (Fin 100))
           Passed)
  end.

Definition test_put_call_parity : outcome :=
  let K := 100 in
  match european_call_price test_model K with
  | Raise e => Failed (Uncaught e)
  | Ok call_price =>
      match european_put_price test_model K with
      | Raise e => Failed (Uncaught e)
      | Ok put_price =>
          let parity_diff := fsub call_price put_price in
          let theoretical_diff :=
            fsub (Fin (S0 test_model))
                 (fmul (Fin K) (np_exp (Fin (- r test_model * T test_model)))) in
          py_assert (flt (fabs (fsub parity_diff theoretical_diff)) (Fin 1e-10))
            Passed
      end
  end.

(** ** class TestMonteCarloSimulation; a test runs on the generator state
    it finds *)

Definition test_simulation_shape (g : rng) : outcome :=
  match monte_carlo_simulation 100 0.05 0.2 1 1000 252 g with
  | Raise e => Failed (Uncaught e)
  | Ok (paths, _) =>
      py_assert ((Z.of_nat (fst (shape paths)) =? 1000)%Z
                 && (Z.of_nat (snd (shape paths)) =? 253)%Z)
        Passed
  end.

Definition test_initial_price (g : rng) : outcome :=
  let S0 := 100 in
  match monte_carlo_simulation S0 0.05 0.2 1 default_n_paths default_n_steps g with
  | Raise e => Failed (Uncaught e)
  | Ok (paths, _) =>
      match get_column paths 0 with
      | Raise e => Failed (Uncaught e)
      | Ok column => py_assert (forallb (fun x => feq x (Fin S0)) column) Passed
      end
  end.

Definition test_positive_prices (g : rng) : outcome :=
  match monte_carlo_simulation 100 0.05 0.2 1 default_n_paths default_n_steps g with
  | Raise e => Failed (Uncaught e)
  | Ok (paths, _) =>
      py_assert (forallb (forallb (fun x => fgt x (Fin 0))) (data paths)) Passed
  end.

(** ** The tests pass *)

Lemma fgt_fin (x y : R) : y < x -> fgt (Fin x) (Fin y) = true.
Proof. intro H. cbn [fgt]. destruct (Rlt_dec y x); [reflexivity | contradiction]. Qed.

Lemma feq_fin_refl (x : R) : feq (Fin x) (Fin x) = true.
Proof. cbn [feq]. destruct (Req_dec_T x x) as [_|H]; [reflexivity | contradiction H; reflexivity]. Qed.

Lemma test_model_valid :
  0 < S0 test_model /\ 0 < sigma test_model /\ 0 < T test_model /\ 0 <= r test_model.
Proof. simpl. repeat split; lra. Qed.

(** X13. The three tests of TestBlackScholesModel pass: no assertion fails
    and nothing is raised (in real arithmetic, where the parity difference
    is exactly zero). *)
Theorem black_scholes_tests_pass :
  test_call_option_price = Passed /\
  test_put_option_price = Passed /\
  test_put_call_parity = Passed.
Proof.
  destruct test_model_valid as [HS [Hs [HT Hr]]].
  assert (HK : 0 < 100) by lra.
  pose proof (bs_call_pos _ (r test_model) _ _ _ HS Hs HT HK) as Hcall.
  pose proof (bs_put_pos _ (r test_model) _ _ _ HS Hs HT HK) as Hput.
  pose proof (bs_parity (S0 test_model) (r test_model) (sigma test_model) (T test_model) 100)
    as Hpar.
  pose proof (bs_put_lt_strike (S0 test_model) (r test_model) (sigma test_model)
                (T test_model) 100 HS HK) as Hup.
  pose proof (discount_le_1 (r test_model) (T test_model) HT Hr) as Hd.
  unfold test_call_option_price, test_put_option_price, test_put_call_parity.
  rewrite (european_call_price_valid test_model 100 HS Hs HT HK).
  rewrite (european_put_price_valid test_model 100 HS Hs HT HK).
  split; [|split].
  - rewrite fgt_fin by exact Hcall. cbn [py_assert].
    rewrite fgt_fin; [reflexivity|].
    apply Rmax_lub_lt; [|exact Hcall].
    replace (S0 test_model - 100) with 0 by (simpl; lra). exact Hcall.
  - rewrite fgt_fin by exact Hput. cbn [py_assert].
    unfold flt. rewrite fgt_fin; [reflexivity | lra].
  - cbn [fsub fneg fadd fmul np_exp fabs]. unfold flt. rewrite fgt_fin; [reflexivity|].
    match goal with |- Rabs ?e < _ => replace e with 0 by lra end.
    rewrite Rabs_R0. lra.
Qed.

Lemma ensemble_column_0 (S0 r sigma dt : R) (g : rng) (n m : nat) :
  get_column (ensemble S0 r sigma dt g n m) 0 = Ok (repeat (Fin S0) n).
Proof.
  unfold get_column, ensemble. cbn [shape data snd].
  rewrite (axis_index_nat 0 (S m) (Nat.lt_0_succ m) : axis_index 0 (S m) = Ok 0%nat).
  cbn [rbind]. rewrite map_map. rewrite (repeat_map_seq (Fin S0) n 0).
  f_equal.
Qed.

(** X14. The three tests of TestMonteCarloSimulation pass on every state of
    the generator, two of them through the default arguments n_paths = 10000
    and n_steps = 252: the shape is (1000, 253), column 0 equals S0 and
    every entry is above zero. *)
Theorem monte_carlo_tests_pass (g : rng) :
  test_simulation_shape g = Passed /\
  test_initial_price g = Passed /\
  test_positive_prices g = Passed.
Proof.
  unfold test_simulation_shape, test_initial_price, test_positive_prices.
  unfold default_n_paths, default_n_steps.
  rewrite !monte_carlo_simulation_closed_form by lia.
  split; [|split].
  - cbn [ensemble shape fst snd].
    replace (Z.of_nat (Z.to_nat 1000) =? 1000)%Z with true by (symmetry; apply Z.eqb_eq; lia).
    replace (Z.of_nat (S (Z.to_nat 252)) =? 253)%Z with true by (symmetry; apply Z.eqb_eq; lia).
    reflexivity.
  - rewrite ensemble_column_0.
    replace (forallb (fun x => feq x (Fin 100)) (repeat (Fin 100) (Z.to_nat 10000))) with true;
      [reflexivity|].
    symmetry. apply forallb_forall. intros x Hx. apply repeat_spec in Hx. subst x.
    apply feq_fin_refl.
  - match goal with |- py_assert ?b _ = _ => replace b with true; [reflexivity|] end.
    symmetry. apply forallb_forall. intros row Hrow.
    apply forallb_forall. intros e He.
    destruct (ensemble_entries _ _ _ _ _ _ _ _ _ Hrow He) as [p [j [_ [_ ->]]]].
    rewrite path_entry_real by (apply time_step_nonneg; [lra | lia]).
    apply fgt_fin. apply path_value_pos. lra.
Qed.

(** * The price paths of the demonstration (main.py, lines 48-61)

    [main] draws five paths of 252 daily steps with an Euler step on the
    price, through [np.random.normal], after [np.random.seed(42)].  The
    generator state that the seed installs is the argument [g] of the
    statements below. *)

(** [np.random.normal()]: one standard normal draw. *)
Definition np_random_normal : M R :=
  fun g => Ok (draws g (consumed g), mkrng (draws g) (consumed g + 1)).

(** [path[-1]] *)
Definition py_last (path : list float64) : result float64 :=
  match path with
  | [] => Raise IndexError
  | _ :: _ => Ok (last path NaN)
  end.

Section Demonstration.
Local Open Scope stmt_scope.

(** The body of the inner loop:
    [dS = path[-1] * (r * dt + sigma * np.sqrt(dt) * np.random.normal())],
    [path.append(path[-1] + dS)]. *)
Definition euler_step (r sigma dt : R) (_ : Z) (path : list float64) : M (list float64) :=
  price <- lift (py_last path) ;;
  z <- np_random_normal ;;
  let dS := fmul price (fadd (Fin (r * dt)) (fmul (fmul (Fin sigma) (np_sqrt dt)) (Fin z))) in
  price' <- lift (py_last path) ;;
  ret (path ++ [fadd price' dS]).

Definition main_paths : M (list (list float64)) :=
  let S0 := 100 in
  let r := 0.05 in
  let sigma := 0.2 in
  let T := 1 in
  dt <- lift (py_truediv T 252) ;;
  for_each (py_range 0 5)
    (fun _ paths =>
       path <- for_each (py_range 0 252) (euler_step r sigma dt) [Fin S0] ;;
       ret (paths ++ [path]))
    [].

End Demonstration.

(** The price after [j] Euler steps on the draws [d (c), d (c + 1), ...]. *)
Fixpoint euler_value (S0 r sigma dt : R) (d : nat -> R) (c j : nat) : R :=
  match j with
  | O => S0
  | S j' =>
      euler_value S0 r sigma dt d c j'
      + euler_value S0 r sigma dt d c j' * (r * dt + sigma * sqrt dt * d (c + j')%nat)
  end.

Section EulerLoop.
Variables (S0 r sigma dt : R) (d : nat -> R) (c : nat).
Hypothesis dt_nonneg : 0 <= dt.

Definition euler_prefix (k : nat) : list float64 :=
  map (fun j => Fin (euler_value S0 r sigma dt d c j)) (seq 0 (S k)).

Lemma euler_prefix_last (k : nat) : py_last (euler_prefix k) = Ok (Fin (euler_value S0 r sigma dt d c k)).
Proof.
  unfold euler_prefix. rewrite seq_S, map_app. cbn [map Nat.add].
  unfold py_last. rewrite last_last.
  destruct (map _ (seq 0 k) ++ _) eqn:E; [|reflexivity].
  apply app_eq_nil in E. destruct E as [_ E]. discriminate E.
Qed.

Lemma euler_step_prefix (i : Z) (k : nat) :
  euler_step r sigma dt i (euler_prefix k) (mkrng d (c + k))
  = Ok (euler_prefix (S k), mkrng d (c + S k)).
Proof.
  unfold euler_step, bind, lift, np_random_normal, ret.
  rewrite euler_prefix_last. cbn [draws consumed].
  rewrite np_sqrt_nonneg by exact dt_nonneg. cbn [fmul fadd].
  f_equal. f_equal.
  - unfold euler_prefix at 2. rewrite seq_S, map_app. reflexivity.
  - f_equal. lia.
Qed.

Lemma euler_loop (xs : list Z) (k : nat) :
  for_each xs (euler_step r sigma dt) (euler_prefix k) (mkrng d (c + k))
  = Ok (euler_prefix (k + length xs), mkrng d (c + (k + length xs))).
Proof.
  revert k. induction xs as [|x xs IH]; intro k.
  - cbn [for_each length]. unfold ret. rewrite Nat.add_0_r. reflexivity.
  - cbn [for_each length]. unfold bind at 1. rewrite euler_step_prefix, IH.
    replace (k + S (length xs))%nat with (S k + length xs)%nat by lia. reflexivity.
Qed.

End EulerLoop.

Lemma py_range_length (lo hi : Z) : length (py_range lo hi) = Z.to_nat (hi - lo).
Proof. unfold py_range. rewrite length_map, length_seq. reflexivity. Qed.

Section DemonstrationRun.
Variables (dt : R) (g : rng).
Hypothesis dt_nonneg : 0 <= dt.

(** Path [p] of the demonstration. *)
Definition demo_path (p : nat) : list float64 :=
  euler_prefix 100 0.05 0.2 dt (draws g) (consumed g + p * 252) 252.

Lemma demo_outer_loop (xs : list Z) (p : nat) :
  for_each xs
    (fun _ paths =>
       bind (for_each (py_range 0 252) (euler_step 0.05 0.2 dt) [Fin 100])
            (fun path => ret (paths ++ [path])))
    (map demo_path (seq 0 p)) (mkrng (draws g) (consumed g + p * 252))
  = Ok (map demo_path (seq 0 (p + length xs)),
        mkrng (draws g) (consumed g + (p + length xs) * 252)).
Proof.
  revert p. induction xs as [|x xs IH]; intro p.
  - cbn [for_each length]. unfold ret. rewrite Nat.add_0_r. reflexivity.
  - cbn [for_each length]. unfold bind at 1. unfold bind at 1.
    pose proof (euler_loop 100 0.05 0.2 dt (draws g) (consumed g + p * 252) dt_nonneg
                  (py_range 0 252) 0) as Hin.
    rewrite py_range_length in Hin.
    change (Z.to_nat (252 - 0)) with 252%nat in Hin.
    rewrite !Nat.add_0_l, !Nat.add_0_r in Hin.
    change (euler_prefix 100 0.05 0.2 dt (draws g) (consumed g + p * 252) 0)
      with [Fin 100] in Hin.
    rewrite Hin. unfold ret at 1.
    replace (map demo_path (seq 0 p) ++ [euler_prefix 100 0.05 0.2 dt (draws g) (consumed g + p * 252) 252])
      with (map demo_path (seq 0 (S p))) by (rewrite seq_S, map_app; reflexivity).
    replace (consumed g + p * 252 + 252)%nat with (consumed g + S p * 252)%nat by lia.
    rewrite IH.
    replace (p + S (length xs))%nat with (S p + length xs)%nat by lia. reflexivity.
Qed.

End DemonstrationRun.

Lemma main_paths_run (g : rng) :
  main_paths g
  = Ok (map (demo_path (1 / 252) g) (seq 0 5), mkrng (draws g) (consumed g + 1260)).
Proof.
  unfold main_paths. cbv zeta. unfold bind at 1. unfold lift.
  rewrite py_truediv_ok by lra.
  assert (Hdt : 0 <= 1 / 252) by lra.
  pose proof (demo_outer_loop (1 / 252) g Hdt (py_range 0 5) 0) as H.
  rewrite py_range_length in H. change (Z.to_nat (5 - 0)) with 5%nat in H.
  cbn [seq map Nat.mul] in H. rewrite Nat.add_0_r in H.
  destruct g as [dr cs]. cbn [draws consumed] in *.
  rewrite H. reflexivity.
Qed.

(** X15. The demonstration builds five paths of 253 prices each, starting
    at 100, whatever the draws are.  The price after step k + 1 is the price
    after step k plus that price times (r * dt + sigma * sqrt dt * z) with
    r = 0.05, sigma = 0.2, dt = 1/252 and z the draw number p * 252 + k
    after the seed, so that path p uses 252 consecutive draws and the five
    paths use 1260 draws in all. *)
Theorem main_paths_euler (g : rng) :
  exists paths g',
    main_paths g = Ok (paths, g') /\
    length paths = 5%nat /\
    consumed g' = (consumed g + 1260)%nat /\
    forall p : nat, (p < 5)%nat ->
      exists path,
        nth_error paths p = Some path /\
        length path = 253%nat /\
        nth_error path 0 = Some (Fin 100) /\
        forall k : nat, (k < 252)%nat ->
          exists price : R,
            nth_error path k = Some (Fin price) /\
            nth_error path (S k) =
            Some (Fin (price + price * (0.05 * (1 / 252)
                                        + 0.2 * sqrt (1 / 252)
                                          * draws g (consumed g + p * 252 + k)))).
Proof.
  eexists. eexists. split; [apply main_paths_run|].
  split; [reflexivity|]. split; [reflexivity|].
  intros p Hp. exists (demo_path (1 / 252) g p).
  split; [rewrite nth_error_map_seq by lia; reflexivity|].
  unfold demo_path, euler_prefix.
  split; [rewrite length_map, length_seq; reflexivity|].
  split; [reflexivity|].
  intros k Hk. eexists.
  rewrite !nth_error_map_seq by lia. split; reflexivity.
Qed.

Lemma euler_value_pos (S0 r sigma dt : R) (d : nat -> R) (c m : nat) :
  0 < S0 ->
  (forall k, (k < m)%nat -> 0 < 1 + r * dt + sigma * sqrt dt * d (c + k)%nat) ->
  forall j, (j <= m)%nat -> 0 < euler_value S0 r sigma dt d c j.
Proof.
  intros HS Hd j. induction j as [|j IH]; intro Hj; [exact HS|].
  cbn [euler_value]. specialize (IH ltac:(lia)). specialize (Hd j ltac:(lia)).
  replace (euler_value S0 r sigma dt d c j
           + euler_value S0 r sigma dt d c j * (r * dt + sigma * sqrt dt * d (c + j)%nat))
    with (euler_value S0 r sigma dt d c j * (1 + r * dt + sigma * sqrt dt * d (c + j)%nat))
    by ring.
  apply Rmult_lt_0_compat; assumption.
Qed.

(** X16. The demonstration keeps a path positive only as long as the
    draws allow it.  If every draw z of path p satisfies
    1 + r * dt + sigma * sqrt dt * z > 0 then all its 253 prices are
    positive; if the first draw of the path fails this, the price after the
    first step is zero or negative. *)
Theorem main_paths_sign (g : rng) (p : nat) :
  (p < 5)%nat ->
  exists paths g' path,
    main_paths g = Ok (paths, g') /\
    nth_error paths p = Some path /\
    ((forall k : nat, (k < 252)%nat ->
        0 < 1 + 0.05 * (1 / 252)
            + 0.2 * sqrt (1 / 252) * draws g (consumed g + p * 252 + k)) ->
     forall k : nat, (k <= 252)%nat ->
       exists price : R, nth_error path k = Some (Fin price) /\ 0 < price) /\
    (1 + 0.05 * (1 / 252) + 0.2 * sqrt (1 / 252) * draws g (consumed g + p * 252 + 0) <= 0 ->
     exists price : R, nth_error path 1 = Some (Fin price) /\ price <= 0).
Proof.
  intro Hp. exists (map (demo_path (1 / 252) g) (seq 0 5)). eexists.
  exists (demo_path (1 / 252) g p).
  split; [apply main_paths_run|].
  split; [rewrite nth_error_map_seq by lia; reflexivity|].
  unfold demo_path, euler_prefix. split.
  - intros Hd k Hk. eexists. rewrite nth_error_map_seq by lia.
    split; [reflexivity|].
    apply (euler_value_pos 100 0.05 0.2 (1 / 252) (draws g) (consumed g + p * 252) 252);
      [lra | exact Hd | exact Hk].
  - intro Hd. eexists. rewrite nth_error_map_seq by lia.
    split; [reflexivity|]. cbn [Nat.add euler_value]. nra.
Qed.

Lemma main_paths_sign_witness :
  exists paths g' path,
    main_paths zero_rng = Ok (paths, g') /\
    nth_error paths 0 = Some path /\
    ((forall k : nat, (k < 252)%nat ->
        0 < 1 + 0.05 * (1 / 252)
            + 0.2 * sqrt (1 / 252) * draws zero_rng (consumed zero_rng + 0 * 252 + k)) ->
     forall k : nat, (k <= 252)%nat ->
       exists price : R, nth_error path k = Some (Fin price) /\ 0 < price) /\
    (1 + 0.05 * (1 / 252)
     + 0.2 * sqrt (1 / 252) * draws zero_rng (consumed zero_rng + 0 * 252 + 0) <= 0 ->
     exists price : R, nth_error path 1 = Some (Fin price) /\ price <= 0).
Proof. apply (main_paths_sign zero_rng 0). lia. Defined.

(** * The range of binary64

    The definitions above read every finite result as a real number.  The
    two library functions whose results leave the range of binary64 on
    valid inputs are [np.exp] and [stats.norm.cdf]: a result too small
    becomes 0.0 and one too large becomes inf.  This section keeps that
    range (rounding within the range is still left out) and runs the same
    program text on it. *)

(** Reals of absolute value at least [float64_overflow] round to an
    infinity, those of absolute value at most [float64_underflow] to zero. *)
Definition float64_overflow : R := 2 ^ 1024 - 2 ^ 970.

Definition float64_underflow : R := / 2 ^ 1075.

Definition in_range (x : R) : float64 :=
  if Rle_dec float64_overflow (Rabs x) then inf_scaled x
  else if Rle_dec (Rabs x) float64_underflow then Fin 0
  else Fin x.

Definition np_exp_ieee (a : float64) : float64 :=
  match a with
  | Fin x => in_range (exp x)
  | PInf => PInf
  | NInf => Fin 0
  | NaN => NaN
  end.

Definition stats_norm_cdf_ieee (a : float64) : float64 :=
  match a with
  | Fin x => in_range (norm_cdf x)
  | PInf => Fin 1
  | NInf => Fin 0
  | NaN => NaN
  end.

(** The two pricing methods and the simulation, with the implementations
    of [np.exp] and [stats.norm.cdf] as parameters. *)
Section WithLibrary.
Variables (exp_impl cdf_impl : float64 -> float64).

Definition european_call_price_with (self : BlackScholesModel) (K : R) : result float64 :=
  (d1 <- d1_of self K ;;
   let d2 := d2_of self d1 in
   let call_price :=
     fsub (fmul (Fin (S0 self)) (cdf_impl d1))
          (fmul (fmul (Fin K) (exp_impl (Fin (- r self * T self)))) (cdf_impl d2)) in
   Ok call_price)%result.

Definition european_put_price_with (self : BlackScholesModel) (K : R) : result float64 :=
  (d1 <- d1_of self K ;;
   let d2 := d2_of self d1 in
   let put_price :=
     fsub (fmul (fmul (Fin K) (exp_impl (Fin (- r self * T self)))) (cdf_impl (fneg d2)))
          (fmul (Fin (S0 self)) (cdf_impl (fneg d1))) in
   Ok put_price)%result.

Definition simulation_step_with (r sigma dt : R) (n_paths : Z) (i : Z) (paths : ndarray)
  : M ndarray :=
  (z <- standard_normal n_paths ;;
   prev <- lift (get_column paths (i - 1)) ;;
   let growth :=
     map (fun zk => exp_impl (fadd (Fin ((r - 0.5 * sigma ^ 2) * dt))
                                   (fmul (fmul (Fin sigma) (np_sqrt dt)) zk))) z in
   col <- lift (vec_mul prev growth) ;;
   lift (set_column paths i col))%stmt.

Definition monte_carlo_simulation_with (S0 r sigma T : R) (n_paths n_steps : Z) : M ndarray :=
  (dt <- lift (py_truediv T (IZR n_steps)) ;;
   paths <- lift (np_zeros n_paths (n_steps + 1)) ;;
   paths <- lift (set_column_scalar paths 0 (Fin S0)) ;;
   paths <- for_each (py_range 1 (n_steps + 1)) (simulation_step_with r sigma dt n_paths) paths ;;
   ret paths)%stmt.

End WithLibrary.

(** On the exact functions these are the definitions of the program. *)
Lemma european_call_price_with_exact (self : BlackScholesModel) (K : R) :
  european_call_price_with np_exp stats_norm_cdf self K = european_call_price self K.
Proof. reflexivity. Qed.

Lemma european_put_price_with_exact (self : BlackScholesModel) (K : R) :
  european_put_price_with np_exp stats_norm_cdf self K = european_put_price self K.
Proof. reflexivity. Qed.

Lemma monte_carlo_simulation_with_exact (S0 r sigma T : R) (n_paths n_steps : Z) (g : rng) :
  monte_carlo_simulation_with np_exp S0 r sigma T n_paths n_steps g
  = monte_carlo_simulation S0 r sigma T n_paths n_steps g.
Proof. reflexivity. Qed.

(** ** Results outside the range *)

Lemma float64_overflow_ge_1 : 1 <= float64_overflow.
Proof.
  unfold float64_overflow.
  replace 1024%nat with (54 + 970)%nat by reflexivity. rewrite pow_add.
  assert (H970 : 1 <= 2 ^ 970) by (apply pow_R1_Rle; lra).
  assert (H53 : 1 <= 2 ^ 53) by (apply pow_R1_Rle; lra).
  replace 54%nat with (S 53) by reflexivity. cbn [pow].
  set (a := 2 ^ 970) in *. set (b := 2 ^ 53) in *. nra.
Qed.

Lemma float64_underflow_pos : 0 < float64_underflow.
Proof. unfold float64_underflow. apply Rinv_0_lt_compat, pow_lt. lra. Qed.

Lemma float64_underflow_lt_1 : float64_underflow < 1.
Proof.
  unfold float64_underflow. rewrite <- Rinv_1.
  apply Rinv_lt_contravar.
  - rewrite Rmult_1_l. apply pow_lt. lra.
  - apply Rlt_pow_R1; [lra | lia].
Qed.

Lemma in_range_underflow (y : R) : 0 <= y -> y <= float64_underflow -> in_range y = Fin 0.
Proof.
  intros H0 Hy. unfold in_range. rewrite (Rabs_right y) by lra.
  pose proof float64_overflow_ge_1. pose proof float64_underflow_lt_1.
  destruct (Rle_dec float64_overflow y); [lra|].
  destruct (Rle_dec y float64_underflow); [reflexivity | contradiction].
Qed.

Lemma in_range_overflow (y : R) : float64_overflow <= y -> in_range y = PInf.
Proof.
  intro Hy. pose proof float64_overflow_ge_1.
  unfold in_range. rewrite (Rabs_right y) by lra.
  destruct (Rle_dec float64_overflow y); [|contradiction].
  apply inf_scaled_pos. lra.
Qed.

Lemma exp_1_ge_2 : 2 <= exp 1.
Proof. pose proof (exp_ineq1_le 1). lra. Qed.

Lemma exp_underflows (x : R) : x <= - 1075 -> exp x <= float64_underflow.
Proof.
  intro Hx. unfold float64_underflow.
  apply Rle_trans with (exp (- INR 1075)).
  - replace (INR 1075) with 1075 by (rewrite INR_IZR_INZ; reflexivity).
    destruct Hx as [Hx | ->]; [left; apply exp_increasing; exact Hx | right; reflexivity].
  - rewrite exp_Ropp. apply Rinv_le_contravar; [apply pow_lt; lra|].
    replace (INR 1075) with (INR 1075 * 1) by ring. rewrite <- exp_pow_nat.
    apply pow_incr. split; [lra | apply exp_1_ge_2].
Qed.

Lemma exp_25_32_ge_2 : 2 <= exp (25 / 32).
Proof.
  replace (25 / 32) with (INR 4 * (25 / 128)) by (simpl; field).
  rewrite <- exp_pow_nat.
  apply Rle_trans with ((1 + 25 / 128) ^ 4).
  - simpl. lra.
  - apply pow_incr. split; [lra | apply exp_ineq1_le].
Qed.

Lemma exp_overflows (x : R) : 800 <= x -> float64_overflow <= exp x.
Proof.
  intro Hx. unfold float64_overflow.
  assert (H970 : 0 <= 2 ^ 970) by (apply pow_le; lra).
  apply Rle_trans with (2 ^ 1024); [set (a := 2 ^ 970) in *; set (b := 2 ^ 1024); lra|].
  apply Rle_trans with (exp 800).
  - replace 800 with (INR 1024 * (25 / 32)).
    + rewrite <- exp_pow_nat. apply pow_incr. split; [lra | apply exp_25_32_ge_2].
    + replace (INR 1024) with 1024 by (rewrite INR_IZR_INZ; reflexivity). field.
  - destruct Hx as [Hx | <-]; [left; apply exp_increasing; exact Hx | right; reflexivity].
Qed.

Lemma sqrt_2PI_ge_1 : 1 <= sqrt (2 * PI).
Proof.
  rewrite <- sqrt_1 at 1. apply sqrt_le_1_alt. pose proof PI2_1. lra.
Qed.

Lemma norm_cdf_underflows (x : R) : x <= - 47 -> norm_cdf x <= float64_underflow.
Proof.
  intro Hx.
  pose proof (mills_bound x ltac:(lra)) as Hm.
  pose proof (norm_cdf_pos x) as Hpos.
  pose proof (gauss_pos x) as Hg.
  pose proof sqrt_2PI_ge_1 as Hs.
  assert (Hpdf : norm_pdf x <= gauss x).
  { unfold norm_pdf. apply Rmult_le_reg_r with (sqrt (2 * PI)); [lra|].
    unfold Rdiv. rewrite Rmult_assoc, Rinv_l by lra. nra. }
  assert (Hle : norm_cdf x <= gauss x) by nra.
  apply Rle_trans with (gauss x); [exact Hle|].
  unfold gauss. apply exp_underflows. nra.
Qed.

(** ** The program on inputs that leave the range *)

(** C5, refuted as stated: S0 = 100, r = -800, sigma = 0.2, T = 1 and
    K = 100 meet every hypothesis, and the call price is NaN.
    [np.exp(-r*T)] is exp 800, which overflows to inf; d2 is about -4000
    and its distribution value underflows to 0.0; their product is NaN. *)
Lemma call_price_overflow_nan :
  european_call_price_with np_exp_ieee stats_norm_cdf_ieee
    (mkBlackScholesModel 100 (- 800) 0.2 1) 100
  = Ok NaN.
Proof.
  set (self := mkBlackScholesModel 100 (- 800) 0.2 1).
  assert (Hd1 : bs_d1 100 (- 800) 0.2 1 100 <= - 47).
  { unfold bs_d1. replace (100 / 100) with 1 by field. rewrite ln_1, sqrt_1.
    apply Rmult_le_reg_r with (0.2 * 1); [lra|].
    unfold Rdiv. rewrite Rmult_assoc, Rinv_l by lra. simpl. lra. }
  unfold european_call_price_with.
  rewrite (d1_of_valid self 100) by (simpl; lra). cbn [rbind].
  unfold d2_of. rewrite np_sqrt_nonneg by (simpl; lra).
  cbn [S0 r sigma T self fmul fsub fneg fadd stats_norm_cdf_ieee np_exp_ieee].
  rewrite (in_range_underflow (norm_cdf (bs_d1 100 (- 800) 0.2 1 100)));
    [| left; apply norm_cdf_pos | apply norm_cdf_underflows; exact Hd1].
  rewrite (in_range_underflow (norm_cdf (bs_d1 100 (- 800) 0.2 1 100 + - (0.2 * sqrt 1))));
    [| left; apply norm_cdf_pos | apply norm_cdf_underflows; rewrite sqrt_1; lra].
  rewrite (in_range_overflow (exp (- - 800 * 1))) by (apply exp_overflows; lra).
  cbn [fmul]. rewrite inf_scaled_pos by lra. cbn [fmul].
  rewrite inf_scaled_zero. reflexivity.
Qed.

(** C6, refuted as stated: S0 = 100, r = -1000000, sigma = 0.2, T = 1 with
    one path of one step meet every hypothesis, and the entry after the
    step is 0.0: the exponent is about -1000000 and [np.exp] underflows. *)
Lemma simulation_underflow_zero :
  monte_carlo_simulation_with np_exp_ieee 100 (- 1000000) 0.2 1 1 1 zero_rng
  = Ok (mkndarray (1%nat, 2%nat) [[Fin 100; Fin 0]], mkrng (fun _ => 0) 1).
Proof.
  unfold monte_carlo_simulation_with, bind, lift.
  rewrite py_truediv_ok by lra.
  change (np_zeros 1 (1 + 1)) with (Ok (mkndarray (1%nat, 2%nat) [[Fin 0; Fin 0]])).
  cbv beta iota.
  change (set_column_scalar (mkndarray (1%nat, 2%nat) [[Fin 0; Fin 0]]) 0 (Fin 100))
    with (Ok (mkndarray (1%nat, 2%nat) [[Fin 100; Fin 0]])).
  cbv beta iota.
  change (py_range 1 (1 + 1)) with [1%Z].
  cbn [for_each]. unfold bind, simulation_step_with, bind, lift, ret.
  change (standard_normal 1 zero_rng) with (Ok ([Fin 0], mkrng (fun _ : nat => 0) 1)).
  cbv beta iota.
  change (get_column (mkndarray (1%nat, 2%nat) [[Fin 100; Fin 0]]) (1 - 1))
    with (Ok [Fin 100]).
  cbv beta iota.
  cbn [map]. rewrite np_sqrt_nonneg by lra. cbn [fmul fadd np_exp_ieee].
  rewrite in_range_underflow; [| left; apply exp_pos | apply exp_underflows].
  - cbn [vec_mul length Nat.eqb map2 fmul].
    change (set_column (mkndarray (1%nat, 2%nat) [[Fin 100; Fin 0]]) 1 [Fin (100 * 0)])
      with (Ok (mkndarray (1%nat, 2%nat) [[Fin 100; Fin (100 * 0)]])).
    cbv beta iota. replace (100 * 0) with 0 by ring. reflexivity.
  - assert (Hs : 0 <= sqrt (1 / 1)) by apply sqrt_pos.
    replace (0.2 * sqrt (1 / 1) * 0) with 0 by ring. simpl. lra.
Qed.
